(** * RMVL: candidate matching, conflict resolution and tracker counters

    A shallow embedding of the parts of RMVL that form armor candidates out
    of light blobs ([GyroDetector]), copy combos ([DefaultCombo::clone]),
    build tag features ([Tag::Tag]), count vanished frames
    ([GyroTracker::updateVanishState]) and count the rounds of a rune
    ([RuneTracker]), with the properties proved of them; and of the warning
    of [Client::spin], the type nodes of the OPC UA server and the
    trackbars of the manual calibration sample.

    Conventions.  A [float] or [double] quantity is a rational ([Q]) and
    the comparisons of the source are the comparisons of [Q].  Where a
    result is converted to [int] after [double] arithmetic ([brightness])
    or stored in a [float] and compared with a [double] (the width of a
    tag), the rounding of IEEE 754 is modelled with [to_double] and
    [to_float]; elsewhere the arithmetic is exact.  A [std::shared_ptr] is
    the address of the object it points to (a [nat]); two pointers are
    equal when the addresses are. *)

From Stdlib Require Import QArith Qround Qabs Qpower Lqa.
From Stdlib Require Import Strings.String Strings.Ascii DecimalString.
From stdpp Require Import gmap list.
From Stdlib Require Import Sorting.Sorted Sorting.Permutation.

Local Open Scope Q_scope.

(** ** Rational comparisons as booleans *)

(** [a > b] of the source. *)
Definition Qgtb (a b : Q) : bool := negb (Qle_bool a b).
(** [a < b] of the source. *)
Definition Qltb (a b : Q) : bool := Qgtb b a.

(** Conversion of a floating value to [int]: truncation towards zero. *)
Definition Qtrunc (q : Q) : Z := Z.quot (Qnum q) (Zpos (Qden q)).

(** ** Rounding to a binary floating-point format *)

(** The integer nearest to [x]; a tie goes to the even one. *)
Definition round_half_even (x : Q) : Z :=
  let f := Qfloor x in
  let r := x - inject_Z f in
  if Qltb r (1 # 2) then f
  else if Qltb (1 # 2) r then (f + 1)%Z
  else if Z.even f then f else (f + 1)%Z.

(** The exponent [e] of a positive rational [a]: [2^e <= a < 2^(e+1)]. *)
Definition ilog2 (a : Q) : Z :=
  let e0 := (Z.log2 (Qnum a) - Z.log2 (Zpos (Qden a)))%Z in
  if Qltb a (2 ^ e0) then (e0 - 1)%Z else e0.

(** The value of precision [p] (a significand of [p] bits) nearest to [q],
    ties to even: the default rounding of IEEE 754.  The exponent is not
    bounded: overflow and subnormal values are outside the model. *)
Definition round_to (p : Z) (q : Q) : Q :=
  if Qeq_bool q 0 then 0
  else
    let a := Qabs q in
    let ulp := 2 ^ (ilog2 a - p + 1) in
    let m := Qred (inject_Z (round_half_even (a / ulp)) * ulp) in
    if Qltb q 0 then - m else m.

(** A value stored in a [float] (binary32) and in a [double] (binary64). *)
Definition to_float (q : Q) : Q := round_to 24 q.
Definition to_double (q : Q) : Q := round_to 53 q.

(** ** [std::sort] *)

(** [std::sort(first, last, comp)].  The standard fixes the result up to the
    order of equivalent elements; this is one such result (an insertion
    sort).  The properties below that depend on the order are stated for
    every sorted arrangement of the input. *)
Fixpoint sort_insert {A} (comp : A -> A -> bool) (x : A) (l : list A) : list A :=
  match l with
  | [] => [x]
  | h :: t => if comp x h then x :: h :: t else h :: sort_insert comp x t
  end.

Fixpoint std_sort {A} (comp : A -> A -> bool) (l : list A) : list A :=
  match l with
  | [] => []
  | h :: t => sort_insert comp h (std_sort comp t)
  end.

(** ** Features and combos of the detector *)

Record Point2f := mkPoint { px : Q; py : Q }.

(** A light blob behind a [light_blob_ptr]: [bid] is the address. *)
Record LightBlob := mkBlob {
  bid : nat;
  bcenter : Point2f;
  bheight : Q
}.

Inductive RobotType := UNKNOWN | ROBOT (id : nat).

(** An armor behind an [armor_ptr]: [aid] is the address, [at0] and [at1]
    the two light blobs ([at(0)] the left one, [at(1)] the right one). *)
Record Armor := mkArmor {
  aid : nat;
  at0 : LightBlob;
  at1 : LightBlob;
  awidth : Q;
  aerror : Q;
  atype : RobotType
}.

Definition setType (t : RobotType) (a : Armor) : Armor :=
  {| aid := aid a; at0 := at0 a; at1 := at1 a;
     awidth := awidth a; aerror := aerror a; atype := t |}.

Module GyroDetector.

(** *** findArmors *)

(** The comparator of the sort: [lhs->getCenter().x < rhs->getCenter().x]. *)
Definition blob_less (lhs rhs : LightBlob) : bool :=
  Qltb (px (bcenter lhs)) (px (bcenter rhs)).

Section FindArmors.
(** [Armor::make_combo(left, right, gyro_data, tick)] with the gyro data and
    the tick of the frame fixed; [None] is the null pointer. *)
Variable make_combo : LightBlob -> LightBlob -> option Armor.
(** [Armor::isContainBlob(blob, armor)]. *)
Variable isContainBlob : LightBlob -> Armor -> bool.

(** The loop over [k]: does the armor contain the center of one of the
    blobs between [i] and [j]? *)
Definition contain (between : list LightBlob) (armor : Armor) : bool :=
  existsb (fun blob => isContainBlob blob armor) between.

(** The loop over [j] for a fixed [i]: [between] holds the blobs of index
    [i+1 .. j-1], [rest] those of index [j ..]. *)
Fixpoint match_row (bi : LightBlob) (between rest : list LightBlob) : list Armor :=
  match rest with
  | [] => []
  | bj :: rest' =>
      match make_combo bi bj with
      | None => match_row bi (between ++ [bj]) rest'
      | Some armor =>
          if contain between armor
          then match_row bi (between ++ [bj]) rest'
          else armor :: match_row bi (between ++ [bj]) rest'
      end
  end.

(** The loop over [i]. *)
Fixpoint match_all (light_blobs : list LightBlob) : list Armor :=
  match light_blobs with
  | [] => []
  | bi :: rest => match_row bi [] rest ++ match_all rest
  end.

(** [findArmors] sorts its argument in place: it returns the sorted blobs
    together with the armors. *)
Definition findArmors (light_blobs : list LightBlob) : list LightBlob * list Armor :=
  let light_blobs := std_sort blob_less light_blobs in
  if (length light_blobs <? 2)%nat then (light_blobs, [])
  else (light_blobs, match_all light_blobs).
End FindArmors.

(** *** eraseErrorArmors *)

(** [a->at(0) == b->at(0) || a->at(1) == b->at(1)]: a blob shared in the
    same role. *)
Definition share_same (a b : Armor) : bool :=
  (bid (at0 a) =? bid (at0 b))%nat || (bid (at1 a) =? bid (at1 b))%nat.

(** [a->at(0) == b->at(1) || a->at(1) == b->at(0)]: a blob shared in
    opposite roles. *)
Definition share_cross (a b : Armor) : bool :=
  (bid (at0 a) =? bid (at1 b))%nat || (bid (at1 a) =? bid (at0 b))%nat.

(** The armor that the body of the two loops marks for the pair
    ([armors[i]], [armors[j]]), if any. *)
Definition loser (ai aj : Armor) : option Armor :=
  if share_same ai aj
  then Some (if Qgtb (awidth ai) (awidth aj) then ai else aj)
  else if share_cross ai aj
  then Some (if Qgtb (aerror ai) (aerror aj) then ai else aj)
  else None.

(** The body of the two loops on [armor_map], which is keyed by address. *)
Definition mark_pair (ai aj : Armor) (armor_map : gmap nat bool) : gmap nat bool :=
  match loser ai aj with
  | Some a => <[aid a := true]> armor_map
  | None => armor_map
  end.

(** The loop over [j] for a fixed [i]. *)
Definition mark_row (ai : Armor) (rest : list Armor) (armor_map : gmap nat bool)
  : gmap nat bool :=
  fold_left (fun m aj => mark_pair ai aj m) rest armor_map.

(** The loop over [i]. *)
Fixpoint mark_all (armors : list Armor) (armor_map : gmap nat bool) : gmap nat bool :=
  match armors with
  | [] => armor_map
  | ai :: rest => mark_all rest (mark_row ai rest armor_map)
  end.

(** [for (armor : armors) armor_map[armor] = false]. *)
Definition init_map (armors : list Armor) : gmap nat bool :=
  fold_left (fun m a => <[aid a := false]> m) armors ∅.

(** [armor_map[val]] in the predicate of [remove_if]; an absent key reads
    as [false]. *)
Definition removable (armor_map : gmap nat bool) (val : Armor) : bool :=
  default false (armor_map !! aid val).

Definition eraseErrorArmors (armors : list Armor) : list Armor :=
  if (length armors <? 2)%nat then armors
  else
    let armor_map := mark_all armors (init_map armors) in
    List.filter (fun val => negb (removable armor_map val)) armors.

(** *** eraseBrightBlobs *)

(** The image: [cols], [rows] and the three channels read by
    [src.at<Vec3b>(y, x)]. *)
Record Mat := mkMat {
  cols : Z;
  rows : Z;
  at_ : Z -> Z -> Z * Z * Z
}.

(** The column sampled at offset [i]. *)
Definition sample_x (src : Mat) (blob : LightBlob) (i : Z) : Z :=
  let x := Qtrunc (px (bcenter blob) - bheight blob * inject_Z i / 5) in
  let x := if (x >? cols src)%Z then (cols src - 1)%Z else x in
  let x := if (x <? 0)%Z then 1%Z else x in
  x.

(** The row sampled (the same for each offset). *)
Definition sample_y (src : Mat) (blob : LightBlob) : Z :=
  let y := Qtrunc (py (bcenter blob)) in
  let y := if (y <? 0)%Z then 1%Z else y in
  let y := if (y >? rows src)%Z then (rows src - 1)%Z else y in
  y.

(** [0.1 * colors[0] + 0.6 * colors[1] + 0.3 * colors[2]] converted to [int].
    The literals are the [double]s nearest to the decimals, each channel is
    converted to [double] exactly, each product and each sum (from the left)
    is rounded to [double], and the conversion to [int] truncates the
    [double] that results. *)
Definition brightness (colors : Z * Z * Z) : Z :=
  let '(c0, c1, c2) := colors in
  let blue := to_double (to_double (1 # 10) * inject_Z c0) in
  let green := to_double (to_double (6 # 10) * inject_Z c1) in
  let red := to_double (to_double (3 # 10) * inject_Z c2) in
  Qtrunc (to_double (to_double (blue + green) + red)).

(** The values of [i] for which the loop body runs: [-5 .. 5] without [0]. *)
Definition offsets : list Z := [-5; -4; -3; -2; -1; 1; 2; 3; 4; 5]%Z.

Definition total_brightness (src : Mat) (blob : LightBlob) : Z :=
  fold_left
    (fun total i => (total + brightness (at_ src (sample_y src blob) (sample_x src blob i)))%Z)
    offsets 0%Z.

Definition eraseBrightBlobs (src : Mat) (blobs : list LightBlob) : list LightBlob :=
  List.filter (fun blob => negb (total_brightness src blob >? 1100)%Z) blobs.

(** *** findLightBlobs and find *)

Section Find.
(** A contour, [cv::findContours] on the frame, [cv::contourArea],
    [MIN_CONTOUR_AREA] and [LightBlob::make_feature] ([None] is the null
    pointer). *)
Variable Contour : Type.
Variable findContours : Mat -> list Contour.
Variable contourArea : Contour -> Q.
Variable MIN_CONTOUR_AREA : Q.
Variable make_feature : Contour -> option LightBlob.
Variable make_combo : LightBlob -> LightBlob -> option Armor.
Variable isContainBlob : LightBlob -> Armor -> bool.

Fixpoint collect_blobs (contours : list Contour) : list LightBlob :=
  match contours with
  | [] => []
  | contour :: contours' =>
      if Qltb (contourArea contour) MIN_CONTOUR_AREA
      then collect_blobs contours'
      else match make_feature contour with
           | Some p_light => p_light :: collect_blobs contours'
           | None => collect_blobs contours'
           end
  end.

Definition findLightBlobs (bin : Mat) : list LightBlob :=
  collect_blobs (findContours bin).

(** [find] appends to [features] and [combos]; the build without the
    inference engine (every armor gets the type [UNKNOWN]). *)
Definition find (src : Mat) (features : list LightBlob) (combos : list Armor)
  : list LightBlob * list Armor :=
  let blobs := findLightBlobs src in
  let blobs := eraseBrightBlobs src blobs in
  if (2 <=? length blobs)%nat then
    let '(blobs, armors) := findArmors make_combo isContainBlob blobs in
    let armors := List.map (setType UNKNOWN) armors in
    let armors := eraseErrorArmors armors in
    (features ++ blobs, combos ++ armors)
  else (features, combos).
End Find.

(** *** eraseFakeArmors *)

(** [it->getType().RobotTypeID == RobotType::UNKNOWN]. *)
Definition is_unknown (it : Armor) : bool :=
  match atype it with
  | UNKNOWN => true
  | ROBOT _ => false
  end.

Definition eraseFakeArmors (armors : list Armor) : list Armor :=
  List.filter (fun it => negb (is_unknown it)) armors.

End GyroDetector.

(** ** GyroTracker: the vanish counter *)

Module GyroTracker.

Inductive VanishState := VANISH | APPEAR.

(** The fields of the tracker that are plain data; the three Kalman filters
    are left out, [updateVanishState] does not touch them. *)
Record Tracker := mkTracker {
  vanish_num : Z;
  sample_time : Q;
  pose : Q * Q;
  rotspeed : Q;
  type_deque : list RobotType
}.

Section Counter.
(** [_vanish_num] is declared in the base class [tracker], whose header is
    not among the sources: an unsigned integer of [bits] bits. *)
Variable bits : Z.

(** [state == VANISH ? _vanish_num++ : _vanish_num = 0]. *)
Definition updateVanishState (state : VanishState) (t : Tracker) : Tracker :=
  {| vanish_num := match state with
                   | VANISH => ((vanish_num t + 1) mod 2 ^ bits)%Z
                   | APPEAR => 0%Z
                   end;
     sample_time := sample_time t;
     pose := pose t;
     rotspeed := rotspeed t;
     type_deque := type_deque t |}.

(** A sequence of calls, the first state of the list first. *)
Definition updates (states : list VanishState) (t : Tracker) : Tracker :=
  fold_left (fun t state => updateVanishState state t) states t.
End Counter.

End GyroTracker.

(** ** RuneTracker: rounds and the total angle *)

Module RuneTracker.

(** Angles are in degrees. *)
Definition full_revolution : Q := 360.
Definition half_revolution : Q := 180.

(** [_round], the total angle that [getAngle] returns (the angle with the
    rounds counted in, not filtered) and [_filter].  [_rotated_speed] and
    the container [_angles] are left out: the round counter and the total
    angle do not depend on them. *)
Record Tracker (KF22f : Type) := mkTracker {
  round : Z;
  angle : Q;
  filter : KF22f
}.
Arguments mkTracker {KF22f}.
Arguments round {KF22f}.
Arguments angle {KF22f}.
Arguments filter {KF22f}.

Section Filter.
(** [KF22f] of rmvl/core/kalman.hpp, the filter of the angle and the angular
    speed, is not among the sources: its state, the angle of its state, its
    prediction over the time [t] between two frames and its correction by a
    measured total angle are parameters. *)
Variable KF22f : Type.
Variable angle_of : KF22f -> Q.
Variable predict : Q -> KF22f -> KF22f.
Variable correct : Q -> KF22f -> KF22f.

(** Modelled from the spec: [RuneTracker::calculateTotalAngle] is declared in
    rune_tracker.h and its body is not among the sources.  The new wrapped
    angle, taken in the current round, is compared with the last filtered
    angle; a difference of more than half a revolution in magnitude is a
    crossing of the revolution boundary, and the round counter goes up (the
    angle fell) or down (the angle jumped).  The total angle is the wrapped
    angle plus [round] full revolutions.  The function returns the new
    round counter and the total angle. *)
Definition calculateTotalAngle (current_angle : Q) (t : Tracker KF22f) : Z * Q :=
  let delta :=
    current_angle + inject_Z (round t) * full_revolution - angle_of (filter t) in
  let round' :=
    if Qltb delta (- half_revolution) then (round t + 1)%Z
    else if Qgtb delta half_revolution then (round t - 1)%Z
    else round t in
  (round', current_angle + inject_Z round' * full_revolution).

(** Modelled from the spec: [RuneTracker::update] and
    [RuneTracker::vanishProcess] are declared in rune_tracker.h and their
    bodies are not among the sources.  [p_rune] is the wrapped angle of the
    rune observed in the frame, or [None] when the rune has vanished, and
    [t] the time since the last frame.  An observation updates the round
    counter, and its total angle is fed to the filter (prediction, then
    correction).  A vanished frame advances the filter by prediction only;
    the total angle becomes the predicted angle and the round counter
    stays. *)
Definition update (t : Q) (p_rune : option Q) (tracker : Tracker KF22f)
    : Tracker KF22f :=
  match p_rune with
  | Some current_angle =>
      let '(round', total) := calculateTotalAngle current_angle tracker in
      {| round := round';
         angle := total;
         filter := correct total (predict t (filter tracker)) |}
  | None =>
      let filter' := predict t (filter tracker) in
      {| round := round tracker;
         angle := angle_of filter';
         filter := filter' |}
  end.

(** A sequence of frames: the states after each. *)
Fixpoint observe (frames : list (Q * option Q)) (tracker : Tracker KF22f)
    : list (Tracker KF22f) :=
  match frames with
  | [] => []
  | (t, p_rune) :: frames' =>
      let tracker' := update t p_rune tracker in
      tracker' :: observe frames' tracker'
  end.
End Filter.

End RuneTracker.

(** ** DefaultCombo::clone *)

Module DefaultCombo.

(** The status tag of a feature or combo, kept as a number. *)
Definition RMStatus := nat.

(** A feature object. *)
Record Feature := mkFeature {
  f_center : Point2f;
  f_width : Q;
  f_height : Q;
  f_angle : Q;
  f_corners : list Point2f;
  f_type : RMStatus
}.

(** A [DefaultCombo] object: [c_features] holds the addresses of its
    features ([std::vector<feature::ptr>]). *)
Record Combo := mkCombo {
  c_features : list nat;
  c_height : Q;
  c_width : Q;
  c_center : Point2f;
  c_angle : Q;
  c_corners : list Point2f;
  c_type : RMStatus;
  c_tick : Q
}.

(** The objects behind the shared pointers; [next] is the first address that
    [std::make_shared] has not handed out. *)
Record Heap := mkHeap {
  features : gmap nat Feature;
  combos : gmap nat Combo;
  next : nat
}.

(** [std::make_shared<Feature>(f)]. *)
Definition make_shared_feature (f : Feature) (h : Heap) : nat * Heap :=
  (next h,
   {| features := <[next h := f]> (features h);
      combos := combos h;
      next := S (next h) |}).

(** [std::make_shared<DefaultCombo>(c)]. *)
Definition make_shared_combo (c : Combo) (h : Heap) : nat * Heap :=
  (next h,
   {| features := features h;
      combos := <[next h := c]> (combos h);
      next := S (next h) |}).

(** Modelled from the spec: [feature::clone] is virtual and its overrides
    are not among the sources.  It is the deep copy of the feature: a new
    object with the fields of the old one.  [None] is the dereference of a
    pointer that has no object. *)
Definition feature_clone (p : nat) (h : Heap) : option (nat * Heap) :=
  match features h !! p with
  | Some f => Some (make_shared_feature f h)
  | None => None
  end.

(** The loop of [clone]: the clones of [_features[i]], in order. *)
Fixpoint clone_features (ps : list nat) (h : Heap) : option (list nat * Heap) :=
  match ps with
  | [] => Some ([], h)
  | p :: ps' =>
      match feature_clone p h with
      | Some (q, h1) =>
          match clone_features ps' h1 with
          | Some (qs, h2) => Some (q :: qs, h2)
          | None => None
          end
      | None => None
      end
  end.

(** [this->clone(tick)]: the copy constructor shares the features, the loop
    replaces each by its clone, then the time stamp is set. *)
Definition clone (this : nat) (tick : Q) (h : Heap) : option (nat * Heap) :=
  match combos h !! this with
  | None => None
  | Some c =>
      let '(retval, h0) := make_shared_combo c h in
      match clone_features (c_features c) h0 with
      | None => None
      | Some (fs, h1) =>
          let c' := {| c_features := fs;
                       c_height := c_height c;
                       c_width := c_width c;
                       c_center := c_center c;
                       c_angle := c_angle c;
                       c_corners := c_corners c;
                       c_type := c_type c;
                       c_tick := tick |} in
          Some (retval,
                {| features := features h1;
                   combos := <[retval := c']> (combos h1);
                   next := next h1 |})
      end
  end.

(** Every object of the heap lies below [next]: the addresses from [next]
    on are free. *)
Definition heap_wf (h : Heap) : Prop :=
  (forall p, is_Some (features h !! p) -> (p < next h)%nat) /\
  (forall p, is_Some (combos h !! p) -> (p < next h)%nat).

(** The constructor [DefaultCombo(p_feature, tick)]: the combo of the one
    feature, with the geometry and the type of the feature.  [None] is the
    dereference of a pointer that has no object. *)
Definition make (p_feature : nat) (tick : Q) (h : Heap) : option Combo :=
  match features h !! p_feature with
  | Some f =>
      Some {| c_features := [p_feature];
              c_height := f_height f;
              c_width := f_width f;
              c_center := f_center f;
              c_angle := f_angle f;
              c_corners := f_corners f;
              c_type := f_type f;
              c_tick := tick |}
  | None => None
  end.

End DefaultCombo.

(** ** Tag::Tag *)

Module Tag.

(** The error raised by [RMVL_Error_]: the code and the formatted message. *)
Inductive Error := RMVL_StsBadArg (msg : string).

Record Tag := mkTag {
  corners_ : list Point2f;
  type_ : nat;
  center_ : Point2f;
  width_ : Q;
  height_ : Q
}.

(** [%zu]. *)
Definition format_size (n : nat) : string :=
  NilEmpty.string_of_uint (Nat.to_uint n).

Definition quote : string := String (ascii_of_nat 34) EmptyString.

(** The message of the constructor, with the size in the place of [%zu]. *)
Definition bad_corners (corners_size : nat) : string :=
  ("the size of the argument " ++ quote ++ "corners" ++ quote
   ++ " should be 4, but now it is " ++ format_size corners_size ++ ".")%string.

Definition point_add (a b : Point2f) : Point2f :=
  {| px := px a + px b; py := py a + py b |}.

Definition point_div (a : Point2f) (d : Q) : Point2f :=
  {| px := px a / d; py := py a / d |}.

Definition origin : Point2f := {| px := 0; py := 0 |}.

Section Constructor.
(** [getDistance] of rmvl/core/math.hpp, the Euclidean distance (a
    [double]). *)
Variable getDistance : Point2f -> Point2f -> Q.

(** The constructor; [inl] is the exception thrown, [inr] the object.  The
    parameter is a [std::array] of four points, so every caller passes four
    corners; the model takes a list of any length, which gives the test of
    the size its meaning.  [length1] and [length2] are [double]s; [_width]
    and [_height] are [float] members of [feature], so each assignment
    rounds to [float], and [_width == length1] compares the stored [float]
    with the [double].  The center is the exact mean of the corners: the
    rounding of its three [float] additions is left out. *)
Definition make (corners : list Point2f) (type : nat) : Error + Tag :=
  let corners_size := List.length corners in
  if negb (corners_size =? 4)%nat
  then inl (RMVL_StsBadArg (bad_corners corners_size))
  else
    let center := fold_left point_add corners origin in
    let center := point_div center (inject_Z (Z.of_nat corners_size)) in
    let length1 := getDistance (nth 0 corners origin) (nth 1 corners origin) in
    let length2 := getDistance (nth 1 corners origin) (nth 2 corners origin) in
    let width := to_float (if Qgtb length1 length2 then length1 else length2) in
    let height := to_float (if Qeq_bool width length1 then length2 else length1) in
    inr {| corners_ := corners;
           type_ := type;
           center_ := center;
           width_ := width;
           height_ := height |}.
End Constructor.

End Tag.

(** ** Client::spin *)

Module Client.

(** A status code of open62541; [UA_STATUSCODE_GOOD] is 0. *)
Definition UA_StatusCode := N.
Definition UA_STATUSCODE_GOOD : UA_StatusCode := 0%N.

(** One turn of the loop of [spin], on the status that
    [UA_Client_run_iterate] returned: the new value of [warning] and whether
    the warning is logged in this turn. *)
Definition spin_turn (warning : bool) (status : UA_StatusCode) : bool * bool :=
  let logged := negb warning && negb (status =? UA_STATUSCODE_GOOD)%N in
  let warning := if logged then true else warning in
  let warning := if (status =? UA_STATUSCODE_GOOD)%N then false else warning in
  (warning, logged).

(** The loop of [spin] never ends; these are its first turns, one for each
    status of the list: what each turn logs. *)
Fixpoint spin_from (warning : bool) (statuses : list UA_StatusCode) : list bool :=
  match statuses with
  | [] => []
  | status :: rest =>
      let '(warning', logged) := spin_turn warning status in
      logged :: spin_from warning' rest
  end.

(** [bool warning{}]: the loop starts without a warning. *)
Definition spin (statuses : list UA_StatusCode) : list bool :=
  spin_from false statuses.

End Client.

(** ** The manual calibration sample *)

Module Calib.

(** [cv::Point]. *)
Record Point := mkPoint { pt_x : Z; pt_y : Z }.

(** [M(i, j) = v] on a [cv::Matx] of [m] rows and [n] columns, kept as its
    array [val] in row order.  An index outside the matrix is refused by an
    assertion of the debug build; the model leaves the matrix as it is. *)
Definition matx_set (m n : Z) (val : list Q) (i j : Z) (v : Q) : list Q :=
  if ((0 <=? i) && (i <? m) && (0 <=? j) && (j <? n))%Z
  then <[Z.to_nat (i * n + j) := v]> val
  else val.

(** The two matrices of the sample. *)
Record State := mkState {
  cameraMatrix : list Q;
  distCoeff : list Q
}.

Definition cameraMatrixCallBack (pos : Z) (mat_pos : Point) (st : State) : State :=
  {| cameraMatrix :=
       matx_set 3 3 (cameraMatrix st) (pt_x mat_pos) (pt_y mat_pos) (inject_Z pos);
     distCoeff := distCoeff st |}.

Definition distCoeffCallBack (pos : Z) (mat_pos : Point) (st : State) : State :=
  let d := distCoeff st in
  let d :=
    if ((pt_x mat_pos =? 0) || (pt_x mat_pos =? 1))%Z
    then matx_set 5 1 d (pt_x mat_pos) (pt_y mat_pos) ((-5000 + inject_Z pos) / 5000)
    else d in
  let d :=
    if ((pt_x mat_pos =? 2) || (pt_x mat_pos =? 3) || (pt_x mat_pos =? 4))%Z
    then matx_set 5 1 d (pt_x mat_pos) (pt_y mat_pos) ((-500 + inject_Z pos) / 5000)
    else d in
  {| cameraMatrix := cameraMatrix st; distCoeff := d |}.

(** [matrix_pose] and [dist_pose] of [main]. *)
Definition matrix_pose : list Point :=
  i ← [0; 1; 2]%Z; j ← [0; 1; 2]%Z; [mkPoint i j].
Definition dist_pose : list Point :=
  i ← [0; 1; 2; 3; 4; 5]%Z; [mkPoint i 0].

Definition at_ (l : list Point) (k : nat) : Point := nth k l (mkPoint 0 0).

Inductive Callback := CameraMatrix | DistCoeff.

(** A trackbar of the control panel: its greatest position, its callback
    and the position in the matrix that the callback is given. *)
Record Trackbar := mkTrackbar {
  count : Z;
  onChange : Callback;
  userdata : Point
}.

(** The nine calls of [createTrackbar] in [main], in order: the four
    trackbars of the camera matrix, named (0, 0), (1, 1), (0, 2) and
    (1, 2), and the five of the distortion coefficients. *)
Definition trackbars : list Trackbar :=
  [ mkTrackbar 10000 CameraMatrix (at_ matrix_pose 0);
    mkTrackbar 10000 CameraMatrix (at_ matrix_pose 0);
    mkTrackbar 3000 CameraMatrix (at_ matrix_pose 2);
    mkTrackbar 3000 CameraMatrix (at_ matrix_pose 5);
    mkTrackbar 10000 DistCoeff (at_ dist_pose 0);
    mkTrackbar 10000 DistCoeff (at_ dist_pose 1);
    mkTrackbar 1000 DistCoeff (at_ dist_pose 2);
    mkTrackbar 1000 DistCoeff (at_ dist_pose 3);
    mkTrackbar 1000 DistCoeff (at_ dist_pose 4) ].

(** The trackbar number [k] is moved to [pos]: its callback runs. *)
Definition slide (k : nat) (pos : Z) (st : State) : State :=
  match trackbars !! k with
  | Some t =>
      match onChange t with
      | CameraMatrix => cameraMatrixCallBack pos (userdata t) st
      | DistCoeff => distCoeffCallBack pos (userdata t) st
      end
  | None => st
  end.

Definition slides (events : list (nat * Z)) (st : State) : State :=
  fold_left (fun st e => slide (fst e) (snd e) st) events st.

(** A trackbar only takes positions from 0 to its greatest position. *)
Definition in_range (e : nat * Z) : Prop :=
  exists t, trackbars !! fst e = Some t /\ (0 <= snd e <= count t)%Z.

(** The distortion coefficients within the span of their trackbars. *)
Definition dist_bounded (d : list Q) : Prop :=
  length d = 5%nat /\
  forall (k : nat) (v : Q), d !! k = Some v ->
    if (k <? 2)%nat then -1 <= v /\ v <= 1 else -(1 # 10) <= v /\ v <= 1 # 10.

(** The loop [for (int i = 0; i <= limit; i += step) line(...)] of [main]:
    the values of [i] at which a line is drawn.  [fuel] bounds the number
    of tests of the condition; [None] is a loop that has not ended when the
    fuel is spent. *)
Fixpoint grid_from (fuel : nat) (i step limit : Z) : option (list Z) :=
  match fuel with
  | O => None
  | S fuel' =>
      if (i <=? limit)%Z
      then option_map (cons i) (grid_from fuel' (i + step) step limit)
      else Some []
  end.

(** The lines across a frame of [size] columns (or rows): one every
    [size / 10]. *)
Definition grid (fuel : nat) (size : Z) : option (list Z) :=
  grid_from fuel 0 (Z.quot size 10) size.

(** [k] values from [i] on, [step] apart. *)
Fixpoint ticks (k : nat) (i step : Z) : list Z :=
  match k with
  | O => []
  | S k' => i :: ticks k' (i + step) step
  end.

End Calib.

(** ** Server: the node of an object type *)

Module Server.

(** An [ObjectType]: its browse name and, for a type that has one, its base
    ([getBase] is the null pointer for a type without base). *)
Inductive ObjectType :=
  | RootType (name : String.string)
  | DerivedType (name : String.string) (base : ObjectType).

Definition getBase (o : ObjectType) : option ObjectType :=
  match o with
  | RootType _ => None
  | DerivedType _ base => Some base
  end.

Definition browse_name (o : ObjectType) : String.string :=
  match o with
  | RootType name => name
  | DerivedType name _ => name
  end.

Section TypeId.
(** Node ids, [id | find(browse_name)], [id.empty()] and
    [nodeBaseObjectType]. *)
Variable NodeId : Type.
Variable find : NodeId -> String.string -> NodeId.
Variable empty : NodeId -> bool.
Variable nodeBaseObjectType : NodeId.

(** The first loop from a type on: the browse names of the type and of its
    bases go on the stack, whose top is the head of the list. *)
Fixpoint push_from (current : ObjectType) (base_stack : list String.string)
  : list String.string :=
  match current with
  | RootType name => name :: base_stack
  | DerivedType name base => push_from base (name :: base_stack)
  end.

(** The first loop, [while (current != nullptr)]. *)
Definition push_bases (current : option ObjectType) (base_stack : list String.string)
  : list String.string :=
  match current with
  | None => base_stack
  | Some o => push_from o base_stack
  end.

(** The second loop: the stack is emptied from the top. *)
Fixpoint pop_bases (base_stack : list String.string) (id : NodeId) : NodeId :=
  match base_stack with
  | [] => id
  | top :: rest => pop_bases rest (find id top)
  end.

(** The type node that [addObjectNode] gives an object of type [type]. *)
Definition object_type_id (type : option ObjectType) : NodeId :=
  let type_id := pop_bases (push_bases type []) nodeBaseObjectType in
  if empty type_id then nodeBaseObjectType else type_id.

(** The parent node that [addObjectTypeNode] gives the type [otype]. *)
Definition parent_type_id (otype : ObjectType) : NodeId :=
  let parent_id := pop_bases (push_bases (getBase otype) []) nodeBaseObjectType in
  if empty parent_id then nodeBaseObjectType else parent_id.
End TypeId.

(** The browse names of a type and its bases, the type first. *)
Fixpoint lineage (o : ObjectType) : list String.string :=
  match o with
  | RootType name => [name]
  | DerivedType name base => name :: lineage base
  end.

End Server.

(** ** Auxiliary notions of the statements *)

(** The blobs are in ascending order of the horizontal position of their
    centers: what [std::sort] with [blob_less] establishes. *)
Definition sorted_by_x (s : list LightBlob) : Prop :=
  StronglySorted (fun l r => px (bcenter l) <= px (bcenter r)) s.

(** [make_combo] stores its two arguments as [at(0)] and [at(1)]. *)
Definition keeps_features (make_combo : LightBlob -> LightBlob -> option Armor) : Prop :=
  forall l r a, make_combo l r = Some a -> at0 a = l /\ at1 a = r.

(** The address [k] is marked by the pass over the pairs of [armors]: some
    pair [i < j] of the list, as it is on entry, has a loser at [k]. *)
Definition marked (armors : list Armor) (k : nat) : Prop :=
  exists (i j : nat) (ai aj a : Armor),
    (i < j)%nat /\ armors !! i = Some ai /\ armors !! j = Some aj /\
    GyroDetector.loser ai aj = Some a /\ aid a = k.

(** The two blobs of an armor are different objects. *)
Definition distinct_blobs (a : Armor) : Prop := bid (at0 a) <> bid (at1 a).

(** Two armors share a blob, in the same role or in opposite roles. *)
Definition conflict (a b : Armor) : bool :=
  GyroDetector.share_same a b || GyroDetector.share_cross a b.

(** The combo [c] has one feature, which exists in [h], and the geometry and
    the type of [c] are those of the feature. *)
Definition mirrors (h : DefaultCombo.Heap) (c : DefaultCombo.Combo) : Prop :=
  exists (p : nat) (f : DefaultCombo.Feature),
    DefaultCombo.c_features c = [p] /\
    DefaultCombo.features h !! p = Some f /\
    DefaultCombo.c_height c = DefaultCombo.f_height f /\
    DefaultCombo.c_width c = DefaultCombo.f_width f /\
    DefaultCombo.c_center c = DefaultCombo.f_center f /\
    DefaultCombo.c_angle c = DefaultCombo.f_angle f /\
    DefaultCombo.c_corners c = DefaultCombo.f_corners f /\
    DefaultCombo.c_type c = DefaultCombo.f_type f.

(** The combo [c] with other features and another time stamp. *)
Definition retick (c : DefaultCombo.Combo) (fs : list nat) (tick : Q)
  : DefaultCombo.Combo :=
  {| DefaultCombo.c_features := fs;
     DefaultCombo.c_height := DefaultCombo.c_height c;
     DefaultCombo.c_width := DefaultCombo.c_width c;
     DefaultCombo.c_center := DefaultCombo.c_center c;
     DefaultCombo.c_angle := DefaultCombo.c_angle c;
     DefaultCombo.c_corners := DefaultCombo.c_corners c;
     DefaultCombo.c_type := DefaultCombo.c_type c;
     DefaultCombo.c_tick := tick |}.

(** The sums of the coordinates of a list of points. *)
Definition sum_x (l : list Point2f) : Q := fold_right (fun c acc => px c + acc) 0 l.
Definition sum_y (l : list Point2f) : Q := fold_right (fun c acc => py c + acc) 0 l.

(** No two different armors of the list tie: those that share a blob in the
    same role differ in width, those that share one in opposite roles only
    differ in error. *)
Definition no_ties (armors : list Armor) : Prop :=
  forall a b, In a armors -> In b armors -> a = b \/
    ((GyroDetector.share_same a b = true -> ~ awidth a == awidth b) /\
     (GyroDetector.share_same a b = false -> GyroDetector.share_cross a b = true ->
      ~ aerror a == aerror b)).

(** The round of the wrapped angle [b] that follows the wrapped angle [a]
    of round [r] on a rotation in the positive sense: the next round when
    the angle fell, the same round otherwise. *)
Definition next_round (a : Q) (r : Z) (b : Q) : Z :=
  if Qltb b a then (r + 1)%Z else r.

Section Unwrapping.
Context {KF22f : Type}.
Variable angle_of : KF22f -> Q.
Variable predict : Q -> KF22f -> KF22f.
Variable correct : Q -> KF22f -> KF22f.

(** The frames of a rotation in the positive sense that the filter follows.
    [a] is the wrapped angle observed last.  Each observed angle is a
    wrapped angle other than the one observed before it, and the angle of
    the filter is within half a revolution of the total angle of the
    observation. *)
Fixpoint tracked (a : Q) (frames : list (Q * option Q))
    (tracker : RuneTracker.Tracker KF22f) : Prop :=
  match frames with
  | [] => True
  | (t, Some b) :: frames' =>
      0 <= b /\ b < RuneTracker.full_revolution /\ ~ b == a /\
      - RuneTracker.half_revolution
        <= b + inject_Z (next_round a (RuneTracker.round tracker) b)
               * RuneTracker.full_revolution
           - angle_of (RuneTracker.filter tracker) /\
      b + inject_Z (next_round a (RuneTracker.round tracker) b)
            * RuneTracker.full_revolution
        - angle_of (RuneTracker.filter tracker)
        < RuneTracker.half_revolution /\
      tracked b frames'
        (RuneTracker.update KF22f angle_of predict correct t (Some b) tracker)
  | (t, None) :: frames' =>
      tracked a frames'
        (RuneTracker.update KF22f angle_of predict correct t None tracker)
  end.
End Unwrapping.

(** The states after the frames unwrap the angles.  [a] is the wrapped angle
    observed last and [r] its round.  At an observation the round counter
    is the round of the observed angle, the total angle is the wrapped
    angle plus the round counter times the full revolution, and it is
    greater than the total angle of the observation before; a vanished
    frame leaves the round counter. *)
Fixpoint unwrapped {KF22f : Type} (a : Q) (r : Z) (frames : list (Q * option Q))
    (states : list (RuneTracker.Tracker KF22f)) : Prop :=
  match frames, states with
  | [], [] => True
  | (_, Some b) :: frames', tracker :: states' =>
      RuneTracker.round tracker = next_round a r b /\
      RuneTracker.angle tracker
        == b + inject_Z (RuneTracker.round tracker) * RuneTracker.full_revolution /\
      a + inject_Z r * RuneTracker.full_revolution < RuneTracker.angle tracker /\
      unwrapped b (RuneTracker.round tracker) frames' states'
  | (_, None) :: frames', tracker :: states' =>
      RuneTracker.round tracker = r /\ unwrapped a r frames' states'
  | _, _ => False
  end.

(** ** Sample data

    Three light blobs on one row, at [x = 100], [120] and [140], a
    [make_combo] that pairs any two blobs, taking the distance of the centers
    as width and the difference of the heights as error, and an
    [isContainBlob] that tests whether the center lies between the two blobs
    of the armor. *)

Definition blob_at (id : nat) (x : Z) (h : Z) : LightBlob :=
  {| bid := id; bcenter := {| px := inject_Z x; py := 50 |}; bheight := inject_Z h |}.

Definition blob100 : LightBlob := blob_at 1 100 20.
Definition blob120 : LightBlob := blob_at 2 120 21.
Definition blob140 : LightBlob := blob_at 3 140 23.

Definition sample_make_combo (l r : LightBlob) : option Armor :=
  Some {| aid := 10 * bid l + bid r; at0 := l; at1 := r;
          awidth := px (bcenter r) - px (bcenter l);
          aerror := Qabs (bheight r - bheight l);
          atype := UNKNOWN |}.

Definition sample_isContainBlob (blob : LightBlob) (armor : Armor) : bool :=
  Qltb (px (bcenter (at0 armor))) (px (bcenter blob)) &&
  Qltb (px (bcenter blob)) (px (bcenter (at1 armor))).

Definition armor_of (l r : LightBlob) : Armor :=
  match sample_make_combo l r with
  | Some a => a
  | None => mkArmor 0 l r 0 0 UNKNOWN
  end.

Definition blob160 : LightBlob := blob_at 4 160 26.

(** The armors of the sample blobs: [armor12] and [armor13] share their left
    blob, [armor12] and [armor23] share the blob at 120 in opposite roles, as
    do [armor23] and [armor34] with the blob at 140. *)
Definition armor12 : Armor := armor_of blob100 blob120.
Definition armor13 : Armor := armor_of blob100 blob140.
Definition armor23 : Armor := armor_of blob120 blob140.
Definition armor34 : Armor := armor_of blob140 blob160.

(** Two armors on the same left blob and of the same width. *)
Definition tie_a : Armor := mkArmor 1 blob100 blob120 20 1 UNKNOWN.
Definition tie_b : Armor := mkArmor 2 blob100 blob140 20 2 UNKNOWN.

(** A frame for [find]: a contour is the blob it becomes together with its
    area, the minimal area is 10 and every pixel is black. *)
Definition sample_area (contour : LightBlob * Q) : Q := snd contour.
Definition sample_make_feature (contour : LightBlob * Q) : option LightBlob :=
  Some (fst contour).
Definition dark : GyroDetector.Mat :=
  GyroDetector.mkMat 640 480 (fun _ _ => (0, 0, 0)%Z).
Definition sample_find (contours : list (LightBlob * Q))
    (features : list LightBlob) (combos : list Armor) :=
  GyroDetector.find (LightBlob * Q)%type (fun _ => contours) sample_area 10
    sample_make_feature sample_make_combo sample_isContainBlob
    dark features combos.

(** A tracker that has missed seven frames. *)
Definition sample_tracker : GyroTracker.Tracker :=
  GyroTracker.mkTracker 7 (1 # 100) (1, 0) (3 # 2) [UNKNOWN; UNKNOWN].

(** A tracker whose 32-bit counter stands at its largest value. *)
Definition full_tracker : GyroTracker.Tracker :=
  GyroTracker.mkTracker 4294967295 (1 # 100) (1, 0) (3 # 2) [UNKNOWN; UNKNOWN].

(** A sample filter.  The state is the angle and the angular speed; the
    prediction moves the angle on by the speed, the correction takes the
    measured angle. *)
Definition sample_angle_of (f : Q * Q) : Q := fst f.
Definition sample_predict (t : Q) (f : Q * Q) : Q * Q :=
  (Qred (fst f + snd f * t), snd f).
Definition sample_correct (total : Q) (f : Q * Q) : Q * Q := (Qred total, snd f).

Definition sample_update :=
  RuneTracker.update (Q * Q) sample_angle_of sample_predict sample_correct.
Definition sample_observe :=
  RuneTracker.observe (Q * Q) sample_angle_of sample_predict sample_correct.

(** A rune tracker in its first round that last saw 350 degrees, turning by
    1000 degrees a second; the frames are 10 ms apart.  It sees 5 and 15
    degrees, misses a frame and sees 40 degrees. *)
Definition sample_rune : RuneTracker.Tracker (Q * Q) :=
  RuneTracker.mkTracker 0 350 (350, 1000).
Definition sample_frames : list (Q * option Q) :=
  [(1 # 100, Some 5); (1 # 100, Some 15); (1 # 100, None); (1 # 100, Some 40)].

(** A rune tracker that last saw 10 degrees, and frames whose wrapped angles
    increase up to the boundary and go past it; the step from 20 to 210
    degrees is more than half a revolution. *)
Definition slow_rune : RuneTracker.Tracker (Q * Q) :=
  RuneTracker.mkTracker 0 10 (10, 1000).
Definition wide_frames : list (Q * option Q) :=
  [(1 # 100, Some 20); (1 # 100, Some 210); (1 # 100, Some 350); (1 # 100, Some 5)].

(** A heap with two features at the addresses 0 and 1 and, at address 2, a
    combo made of them. *)
Definition sample_feature0 : DefaultCombo.Feature :=
  DefaultCombo.mkFeature (mkPoint 100 50) 4 20 (1 # 2) [mkPoint 98 40; mkPoint 102 60] 1%nat.
Definition sample_feature1 : DefaultCombo.Feature :=
  DefaultCombo.mkFeature (mkPoint 140 50) 5 23 (1 # 3) [mkPoint 138 39; mkPoint 142 61] 1%nat.
Definition sample_combo : DefaultCombo.Combo :=
  DefaultCombo.mkCombo [0; 1]%nat 23 40 (mkPoint 120 50) 0
    [mkPoint 98 40; mkPoint 102 60; mkPoint 138 39; mkPoint 142 61] 2%nat (1000 # 1).
Definition sample_heap : DefaultCombo.Heap :=
  DefaultCombo.mkHeap (<[0%nat := sample_feature0]> (<[1%nat := sample_feature1]> ∅))
    (<[2%nat := sample_combo]> ∅) 3%nat.

(** The distance of two points on a line parallel to an axis, and a tag of
    30 by 20 pixels. *)
Definition axis_distance (a b : Point2f) : Q :=
  Qabs (px a - px b) + Qabs (py a - py b).
Definition sample_corners : list Point2f :=
  [mkPoint 10 10; mkPoint 10 30; mkPoint 40 30; mkPoint 40 10].

(** The two matrices of the sample as it starts without a file. *)
Definition sample_state : Calib.State :=
  Calib.mkState [1250; 0; 640; 0; 1250; 512; 0; 0; 1] [0; 0; 0; 0; 0].

(** A sample [getDistance] in [double] arithmetic.  The square root is
    taken to 120 binary digits and then rounded: the [double] nearest to the
    root, unless the root lies within [2^-120] of the middle of two
    [double]s. *)
Definition sqrt_double (q : Q) : Q :=
  to_double (inject_Z (Z.sqrt (Qfloor (q * 2 ^ 240))) / 2 ^ 120).

Definition sqrt_distance (a b : Point2f) : Q :=
  let dx := to_float (px a - px b) in
  let dy := to_float (py a - py b) in
  sqrt_double (to_double (to_double (dx * dx) + to_double (dy * dy))).

(** Four corners with an edge of length the square root of 10 and an edge
    of length 1. *)
Definition skew_corners : list Point2f :=
  [mkPoint 0 0; mkPoint 3 1; mkPoint 3 2; mkPoint 0 1].

(** * Properties *)

(** ** Comparisons *)

Lemma Qgtb_true a b : Qgtb a b = true <-> b < a.
Proof.
  unfold Qgtb. rewrite negb_true_iff. split.
  - intros H. apply Qnot_le_lt. intros Hle.
    apply Qle_bool_iff in Hle. congruence.
  - intros H. destruct (Qle_bool a b) eqn:E; [|reflexivity].
    apply Qle_bool_iff in E. exfalso. revert E. apply Qlt_not_le, H.
Qed.

Lemma Qgtb_false a b : Qgtb a b = false <-> a <= b.
Proof.
  unfold Qgtb. rewrite negb_false_iff. apply Qle_bool_iff.
Qed.

Lemma Qltb_true a b : Qltb a b = true <-> a < b.
Proof. apply Qgtb_true. Qed.

Lemma Qltb_false a b : Qltb a b = false <-> b <= a.
Proof. apply Qgtb_false. Qed.

(** ** Rounding *)

Lemma two_pow_pos (k : Z) : 0 < 2 ^ k.
Proof. apply Qpower_0_lt. reflexivity. Qed.

Lemma two_pow_Z (k : Z) : (0 <= k)%Z -> inject_Z (2 ^ k) == 2 ^ k.
Proof. intros H. apply (Zpower_Qpower 2 k H). Qed.

Lemma two_pow_quot (n m : Z) : 2 ^ n / 2 ^ m == 2 ^ (n - m).
Proof. symmetry. apply Qpower_minus. discriminate. Qed.

Lemma round_half_even_bounds (x : Q) :
  (Qfloor x <= round_half_even x <= Qfloor x + 1)%Z.
Proof.
  unfold round_half_even.
  destruct (Qltb _ _); [lia|]. destruct (Qltb _ _); [lia|].
  destruct (Z.even _); lia.
Qed.

Lemma round_half_even_Z (z : Z) : round_half_even (inject_Z z) = z.
Proof.
  unfold round_half_even. rewrite Qfloor_Z.
  assert (E : Qltb (inject_Z z - inject_Z z) (1 # 2) = true).
  { apply Qltb_true. lra. }
  by rewrite E.
Qed.

Lemma round_half_even_mono (x y : Q) :
  x <= y -> (round_half_even x <= round_half_even y)%Z.
Proof.
  intros Hxy. pose proof (Qfloor_resp_le x y Hxy) as Hf.
  destruct (Z.eq_dec (Qfloor x) (Qfloor y)) as [E|E].
  - unfold round_half_even. rewrite E.
    destruct (Qltb (y - inject_Z (Qfloor y)) (1 # 2)) eqn:Ey1.
    + apply Qltb_true in Ey1.
      assert (Ex1 : Qltb (x - inject_Z (Qfloor y)) (1 # 2) = true)
        by (apply Qltb_true; lra).
      rewrite Ex1. lia.
    + destruct (Qltb (1 # 2) (y - inject_Z (Qfloor y))) eqn:Ey2.
      * destruct (Qltb (x - _) _); [lia|]. destruct (Qltb _ (x - _)); [lia|].
        destruct (Z.even _); lia.
      * apply Qltb_false in Ey1, Ey2.
        destruct (Qltb (x - inject_Z (Qfloor y)) (1 # 2)) eqn:Ex1;
          [destruct (Z.even _); lia|].
        apply Qltb_false in Ex1.
        assert (Ex2 : Qltb (1 # 2) (x - inject_Z (Qfloor y)) = false)
          by (apply Qltb_false; lra).
        rewrite Ex2. lia.
  - pose proof (round_half_even_bounds x). pose proof (round_half_even_bounds y). lia.
Qed.

Lemma Qdiv_Z_le (a b c d : Z) :
  (0 < b)%Z -> (0 < d)%Z -> (a * d <= c * b)%Z ->
  inject_Z a / inject_Z b <= inject_Z c / inject_Z d.
Proof.
  intros Hb Hd H. destruct b as [|b|b]; [lia| |lia]. destruct d as [|d|d]; [lia| |lia].
  rewrite <- !Qmake_Qdiv. unfold Qle. cbn [Qnum Qden]. exact H.
Qed.

Lemma Qdiv_Z_lt (a b c d : Z) :
  (0 < b)%Z -> (0 < d)%Z -> (a * d < c * b)%Z ->
  inject_Z a / inject_Z b < inject_Z c / inject_Z d.
Proof.
  intros Hb Hd H. destruct b as [|b|b]; [lia| |lia]. destruct d as [|d|d]; [lia| |lia].
  rewrite <- !Qmake_Qdiv. unfold Qlt. cbn [Qnum Qden]. exact H.
Qed.

Lemma two_pow_frac (n m : Z) :
  (0 <= n)%Z -> (0 <= m)%Z -> 2 ^ (n - m) == inject_Z (2 ^ n) / inject_Z (2 ^ m).
Proof. intros Hn Hm. by rewrite <- two_pow_quot, <- !two_pow_Z. Qed.

Lemma ilog2_spec (a : Q) : 0 < a -> 2 ^ ilog2 a <= a /\ a < 2 ^ (ilog2 a + 1).
Proof.
  intros Ha. unfold ilog2.
  set (e0 := (Z.log2 (Qnum a) - Z.log2 (Zpos (Qden a)))%Z).
  destruct (Qltb a (2 ^ e0)) eqn:E.
  - apply Qltb_true in E. replace (e0 - 1 + 1)%Z with e0 by lia.
    split; [|exact E].
    destruct a as [n d]. cbn [Qnum Qden] in e0.
    assert (Hn : (0 < n)%Z) by (unfold Qlt in Ha; cbn in Ha; lia).
    pose proof (Z.log2_spec n Hn) as [Hn1 _].
    pose proof (Z.log2_spec (Zpos d) ltac:(lia)) as [_ Hd2].
    pose proof (Z.log2_nonneg n). pose proof (Z.log2_nonneg (Zpos d)).
    replace (e0 - 1)%Z with (Z.log2 n - (Z.log2 (Z.pos d) + 1))%Z by (unfold e0; lia).
    rewrite two_pow_frac by lia. rewrite (Qmake_Qdiv n d).
    apply Qdiv_Z_le; [|lia|].
    + apply Z.pow_pos_nonneg; lia.
    + rewrite <- Z.add_1_r in Hd2.
      assert (0 < 2 ^ Z.log2 n)%Z by (apply Z.pow_pos_nonneg; lia). nia.
  - apply Qltb_false in E. split; [exact E|].
    destruct a as [n d]. cbn [Qnum Qden] in e0.
    assert (Hn : (0 < n)%Z) by (unfold Qlt in Ha; cbn in Ha; lia).
    pose proof (Z.log2_spec n Hn) as [_ Hn2].
    pose proof (Z.log2_spec (Zpos d) ltac:(lia)) as [Hd1 _].
    pose proof (Z.log2_nonneg n). pose proof (Z.log2_nonneg (Zpos d)).
    replace (e0 + 1)%Z with ((Z.log2 n + 1) - Z.log2 (Z.pos d))%Z by (unfold e0; lia).
    rewrite two_pow_frac by lia. rewrite (Qmake_Qdiv n d).
    apply Qdiv_Z_lt; [lia| |].
    + apply Z.pow_pos_nonneg; lia.
    + rewrite <- Z.add_1_r in Hn2. nia.
Qed.

Lemma two_pow_mult (n m : Z) : 2 ^ n * 2 ^ m == 2 ^ (n + m).
Proof. symmetry. apply Qpower_plus. discriminate. Qed.

Lemma round_to_pos (p : Z) (a : Q) :
  0 < a ->
  round_to p a
  == inject_Z (round_half_even (a / 2 ^ (ilog2 a - p + 1))) * 2 ^ (ilog2 a - p + 1).
Proof.
  intros Ha. unfold round_to.
  assert (E0 : Qeq_bool a 0 = false).
  { destruct (Qeq_bool a 0) eqn:E; [|reflexivity].
    apply Qeq_bool_iff in E. rewrite E in Ha. discriminate. }
  assert (E1 : Qltb a 0 = false) by (apply Qltb_false; lra).
  assert (E2 : Qabs a = a).
  { destruct a as [n d]. unfold Qlt in Ha. cbn in Ha |- *. rewrite Z.abs_eq by lia.
    reflexivity. }
  rewrite E0, E1, E2. apply Qred_correct.
Qed.

Lemma round_to_0 (p : Z) (q : Q) : q == 0 -> round_to p q == 0.
Proof.
  intros E. unfold round_to. apply Qeq_bool_iff in E. rewrite E. reflexivity.
Qed.

(** The scaled value lies between [2^(p-1)] and [2^p]. *)
Lemma scaled_bounds (p : Z) (a : Q) :
  0 < a ->
  2 ^ (p - 1) <= a / 2 ^ (ilog2 a - p + 1) /\
  a / 2 ^ (ilog2 a - p + 1) <= 2 ^ p.
Proof.
  intros Ha. destruct (ilog2_spec a Ha) as [Hlo Hhi]. split.
  - apply Qle_shift_div_l; [apply two_pow_pos|].
    rewrite two_pow_mult. replace (p - 1 + (ilog2 a - p + 1))%Z with (ilog2 a) by lia.
    exact Hlo.
  - apply Qle_shift_div_r; [apply two_pow_pos|].
    rewrite two_pow_mult. replace (p + (ilog2 a - p + 1))%Z with (ilog2 a + 1)%Z by lia.
    apply Qlt_le_weak, Hhi.
Qed.

Lemma round_to_bounds (p : Z) (a : Q) :
  (1 <= p)%Z -> 0 < a ->
  2 ^ ilog2 a <= round_to p a /\ round_to p a <= 2 ^ (ilog2 a + 1).
Proof.
  intros Hp Ha. rewrite (round_to_pos p a Ha).
  destruct (scaled_bounds p a Ha) as [Hlo Hhi].
  assert (Hlo' : inject_Z (2 ^ (p - 1))
                 <= inject_Z (round_half_even (a / 2 ^ (ilog2 a - p + 1)))).
  { rewrite <- Zle_Qle. rewrite <- (round_half_even_Z (2 ^ (p - 1))).
    apply round_half_even_mono. rewrite two_pow_Z by lia. exact Hlo. }
  assert (Hhi' : inject_Z (round_half_even (a / 2 ^ (ilog2 a - p + 1)))
                 <= inject_Z (2 ^ p)).
  { rewrite <- Zle_Qle. rewrite <- (round_half_even_Z (2 ^ p)).
    apply round_half_even_mono. rewrite two_pow_Z by lia. exact Hhi. }
  rewrite two_pow_Z in Hlo', Hhi' by lia.
  clear Hlo Hhi. rename Hlo' into Hlo. rename Hhi' into Hhi.
  pose proof (two_pow_pos (ilog2 a - p + 1)) as Hu.
  assert (E1 : 2 ^ ilog2 a == 2 ^ (p - 1) * 2 ^ (ilog2 a - p + 1)).
  { rewrite two_pow_mult. replace (p - 1 + (ilog2 a - p + 1))%Z with (ilog2 a) by lia.
    reflexivity. }
  assert (E2 : 2 ^ (ilog2 a + 1) == 2 ^ p * 2 ^ (ilog2 a - p + 1)).
  { rewrite two_pow_mult. replace (p + (ilog2 a - p + 1))%Z with (ilog2 a + 1)%Z by lia.
    reflexivity. }
  rewrite E1, E2. split.
  - apply Qmult_le_compat_r; [exact Hlo|]. by apply Qlt_le_weak.
  - apply Qmult_le_compat_r; [exact Hhi|]. by apply Qlt_le_weak.
Qed.

Lemma round_to_nonneg (p : Z) (a : Q) : (1 <= p)%Z -> 0 <= a -> 0 <= round_to p a.
Proof.
  intros Hp Ha. destruct (Qeq_dec a 0) as [E|E].
  - rewrite (round_to_0 p a E). apply Qle_refl.
  - assert (0 < a)
      by (apply Qle_lteq in Ha; destruct Ha as [H|H]; [exact H|]; by symmetry in H).
    destruct (round_to_bounds p a Hp H) as [Hlo _].
    eapply Qle_trans; [|exact Hlo]. apply Qlt_le_weak, two_pow_pos.
Qed.

(** Rounding is monotone on the non-negative rationals. *)
Lemma round_to_mono (p : Z) (a b : Q) :
  (1 <= p)%Z -> 0 <= a -> a <= b -> round_to p a <= round_to p b.
Proof.
  intros Hp Ha Hab. destruct (Qeq_dec a 0) as [E|E].
  { rewrite (round_to_0 p a E). apply round_to_nonneg; [exact Hp|]. lra. }
  assert (Ha' : 0 < a)
    by (apply Qle_lteq in Ha; destruct Ha as [H|H]; [exact H|]; by symmetry in H).
  assert (Hb' : 0 < b) by lra.
  destruct (ilog2_spec a Ha') as [Ha1 Ha2]. destruct (ilog2_spec b Hb') as [Hb1 Hb2].
  assert (Hle : (ilog2 a <= ilog2 b)%Z).
  { assert (Hlt : 2 ^ ilog2 a < 2 ^ (ilog2 b + 1)) by lra.
    apply Qpower_lt_compat_l_inv in Hlt; [lia|reflexivity]. }
  destruct (Z.eq_dec (ilog2 a) (ilog2 b)) as [Ee|Ee].
  - rewrite (round_to_pos p a Ha'), (round_to_pos p b Hb'), Ee.
    pose proof (two_pow_pos (ilog2 b - p + 1)) as Hu.
    apply Qmult_le_compat_r; [|by apply Qlt_le_weak].
    rewrite <- Zle_Qle. apply round_half_even_mono.
    apply Qmult_le_compat_r; [exact Hab|]. apply Qlt_le_weak, Qinv_lt_0_compat, Hu.
  - destruct (round_to_bounds p a Hp Ha') as [_ Hahi].
    destruct (round_to_bounds p b Hp Hb') as [Hblo _].
    assert (Hpow : 2 ^ (ilog2 a + 1) <= 2 ^ ilog2 b).
    { apply Qpower_le_compat_l; [lia|]. discriminate. }
    lra.
Qed.

(** ** Sorting *)

Lemma sort_insert_perm {A} (comp : A -> A -> bool) x l :
  sort_insert comp x l ≡ₚ x :: l.
Proof.
  induction l as [|h t IH]; simpl; [reflexivity|].
  destruct (comp x h); [reflexivity|].
  rewrite IH. apply perm_swap.
Qed.

Lemma std_sort_perm {A} (comp : A -> A -> bool) l : std_sort comp l ≡ₚ l.
Proof.
  induction l as [|h t IH]; simpl; [reflexivity|].
  rewrite sort_insert_perm. by rewrite IH.
Qed.

Lemma std_sort_length {A} (comp : A -> A -> bool) l :
  length (std_sort comp l) = length l.
Proof. apply Permutation_length, std_sort_perm. Qed.

Lemma sort_insert_sorted x l :
  sorted_by_x l -> sorted_by_x (sort_insert GyroDetector.blob_less x l).
Proof.
  unfold sorted_by_x.
  induction l as [|h t IH]; simpl; intros Hs.
  - repeat constructor.
  - inversion Hs as [|h' t' Ht Hh]; subst.
    destruct (GyroDetector.blob_less x h) eqn:E.
    + apply Qltb_true in E.
      constructor; [assumption|].
      constructor; [apply Qlt_le_weak, E|].
      eapply List.Forall_impl; [|exact Hh].
      intros y Hy. simpl. eapply Qle_trans; [apply Qlt_le_weak, E | exact Hy].
    + apply Qltb_false in E.
      constructor; [apply IH, Ht|].
      rewrite sort_insert_perm. constructor; assumption.
Qed.

Lemma std_sort_sorted l : sorted_by_x (std_sort GyroDetector.blob_less l).
Proof.
  induction l as [|h t IH]; simpl.
  - constructor.
  - apply sort_insert_sorted, IH.
Qed.

Lemma sorted_by_x_split pre x post :
  sorted_by_x (pre ++ x :: post) ->
  (forall y, In y pre -> px (bcenter y) <= px (bcenter x)) /\
  (forall y, In y post -> px (bcenter x) <= px (bcenter y)).
Proof.
  unfold sorted_by_x.
  induction pre as [|p pre IH]; simpl; intros Hs.
  - inversion Hs as [|? ? _ Hx]; subst. split; [tauto|].
    intros y Hy. rewrite List.Forall_forall in Hx. by apply Hx.
  - inversion Hs as [|? ? Ht Hp]; subst.
    destruct (IH Ht) as [IH1 IH2]. split; [|exact IH2].
    intros y [->|Hy]; [|by apply IH1].
    rewrite List.Forall_forall in Hp. apply Hp.
    apply in_or_app. right. by left.
Qed.

(** ** The candidate matcher *)

Section FindArmorsFacts.
Variable make_combo : LightBlob -> LightBlob -> option Armor.
Variable isContainBlob : LightBlob -> Armor -> bool.

Local Abbreviation match_row := (GyroDetector.match_row make_combo isContainBlob).
Local Abbreviation match_all := (GyroDetector.match_all make_combo isContainBlob).
Local Abbreviation contain := (GyroDetector.contain isContainBlob).

(** An armor of a row comes from a pair that passed both tests. *)
Lemma match_row_In bi a' rest : forall between,
  In a' (match_row bi between rest) ->
  exists mid bj post,
    rest = mid ++ bj :: post /\ make_combo bi bj = Some a' /\
    contain (between ++ mid) a' = false.
Proof.
  induction rest as [|bj rest IH]; simpl; intros between Hin; [tauto|].
  assert (Hrec : In a' (match_row bi (between ++ [bj]) rest) ->
    exists mid bj0 post,
      bj :: rest = mid ++ bj0 :: post /\ make_combo bi bj0 = Some a' /\
      contain (between ++ mid) a' = false).
  { intros H. destruct (IH _ H) as (mid & bj0 & post & -> & Hm & Hc).
    exists (bj :: mid), bj0, post. split; [reflexivity|]. split; [exact Hm|].
    by rewrite <- app_assoc in Hc. }
  destruct (make_combo bi bj) as [armor|] eqn:Em; [|by apply Hrec].
  destruct (contain between armor) eqn:Ec; [by apply Hrec|].
  destruct Hin as [->|Hin]; [|by apply Hrec].
  exists [], bj, rest. rewrite app_nil_r. auto.
Qed.

Lemma match_all_In a' s :
  In a' (match_all s) ->
  exists pre bi mid bj post,
    s = pre ++ bi :: mid ++ bj :: post /\ make_combo bi bj = Some a' /\
    contain mid a' = false.
Proof.
  induction s as [|bi rest IH]; simpl; intros Hin; [tauto|].
  apply in_app_or in Hin. destruct Hin as [Hin|Hin].
  - apply match_row_In in Hin. destruct Hin as (mid & bj & post & -> & Hm & Hc).
    exists [], bi, mid, bj, post. auto.
  - destruct (IH Hin) as (pre & bi0 & mid & bj & post & -> & Hm & Hc).
    exists (bi :: pre), bi0, mid, bj, post. auto.
Qed.

(** The prune on a sorted list. *)
Lemma match_all_prune s A B C a :
  keeps_features make_combo -> sorted_by_x s -> In B s ->
  px (bcenter A) < px (bcenter B) -> px (bcenter B) < px (bcenter C) ->
  make_combo A C = Some a -> isContainBlob B a = true ->
  forall a', In a' (match_all s) -> ~ (at0 a' = A /\ at1 a' = C).
Proof.
  intros Hk Hs HB HAB HBC Ha Hcont a' Hin [H0 H1].
  destruct (match_all_In _ _ Hin) as (pre & bi & mid & bj & post & -> & Hm & Hc).
  destruct (Hk _ _ _ Hm) as [Hbi Hbj]. rewrite H0 in Hbi. rewrite H1 in Hbj.
  subst bi bj. assert (a' = a) by congruence. subst a'.
  destruct (sorted_by_x_split _ _ _ Hs) as [Hpre _].
  replace (pre ++ A :: mid ++ C :: post)
    with ((pre ++ A :: mid) ++ C :: post) in Hs
    by (rewrite <- app_assoc; reflexivity).
  destruct (sorted_by_x_split _ _ _ Hs) as [_ Hpost].
  apply in_app_or in HB. destruct HB as [HB|[HB|HB]].
  - apply Hpre in HB. revert HB. apply Qlt_not_le, HAB.
  - subst B. revert HAB. apply Qlt_irrefl.
  - apply in_app_or in HB. destruct HB as [HB|[HB|HB]].
    + assert (contain mid a = true); [|congruence].
      apply existsb_exists. exists B. auto.
    + subst B. revert HBC. apply Qlt_irrefl.
    + apply Hpost in HB. revert HB. apply Qlt_not_le, HBC.
Qed.
End FindArmorsFacts.

(** The matcher on the sample: the pair (100, 140) is cut by the blob at 120. *)
Example findArmors_sample :
  GyroDetector.findArmors sample_make_combo sample_isContainBlob
    [blob140; blob100; blob120]
  = ([blob100; blob120; blob140],
     [armor_of blob100 blob120; armor_of blob120 blob140]).
Proof. vm_compute. reflexivity. Qed.

(** C1 (containment prune).  Let A, B, C be three blobs of the input with
    centers ordered A < B < C horizontally, and let B's center lie inside the
    armor that [make_combo] builds from A and C.  Then no armor with the
    features A and C is among the armors matched on any sorted arrangement
    of the input, and none is returned by [findArmors]. *)
Theorem findArmors_containment_prune
    (make_combo : LightBlob -> LightBlob -> option Armor)
    (isContainBlob : LightBlob -> Armor -> bool)
    (blobs : list LightBlob) (A B C : LightBlob) (a : Armor) :
  keeps_features make_combo ->
  In A blobs -> In B blobs -> In C blobs ->
  px (bcenter A) < px (bcenter B) -> px (bcenter B) < px (bcenter C) ->
  make_combo A C = Some a -> isContainBlob B a = true ->
  (forall s, s ≡ₚ blobs -> sorted_by_x s ->
     Forall (fun a' => ~ (at0 a' = A /\ at1 a' = C))
       (GyroDetector.match_all make_combo isContainBlob s)) /\
  Forall (fun a' => ~ (at0 a' = A /\ at1 a' = C))
    (snd (GyroDetector.findArmors make_combo isContainBlob blobs)).
Proof.
  intros Hk _ HB _ HAB HBC Ha Hc.
  assert (Hgen : forall s, s ≡ₚ blobs -> sorted_by_x s ->
     Forall (fun a' => ~ (at0 a' = A /\ at1 a' = C))
       (GyroDetector.match_all make_combo isContainBlob s)).
  { intros s Hp Hs. apply List.Forall_forall. intros a' Hin.
    eapply match_all_prune; eauto.
    eapply Permutation_in; [symmetry; exact Hp | exact HB]. }
  split; [exact Hgen|].
  unfold GyroDetector.findArmors.
  destruct (length (std_sort GyroDetector.blob_less blobs) <? 2)%nat; simpl.
  - constructor.
  - apply Hgen; [apply std_sort_perm | apply std_sort_sorted].
Qed.

Lemma sample_keeps_features : keeps_features sample_make_combo.
Proof. intros l r a [= <-]. split; reflexivity. Qed.

Lemma findArmors_containment_prune_witness :
  Forall (fun a' => ~ (at0 a' = blob100 /\ at1 a' = blob140))
    (snd (GyroDetector.findArmors sample_make_combo sample_isContainBlob
            [blob140; blob100; blob120])).
Proof.
  apply (findArmors_containment_prune sample_make_combo sample_isContainBlob
           [blob140; blob100; blob120] blob100 blob120 blob140
           (armor_of blob100 blob140)).
  - exact sample_keeps_features.
  - simpl; tauto.
  - simpl; tauto.
  - simpl; tauto.
  - reflexivity.
  - reflexivity.
  - reflexivity.
  - reflexivity.
Defined.

(** ** Conflict resolution *)

Lemma init_map_not_true (armors : list Armor) (m : gmap nat bool) (k : nat) :
  fold_left (fun m a => <[aid a := false]> m) armors m !! k = Some true ->
  m !! k = Some true.
Proof.
  revert m. induction armors as [|a l IH]; simpl; intros m H; [exact H|].
  apply IH in H. rewrite lookup_insert in H.
  destruct (decide (aid a = k)); [discriminate|exact H].
Qed.

Lemma mark_pair_true (ai aj : Armor) (m : gmap nat bool) (k : nat) :
  GyroDetector.mark_pair ai aj m !! k = Some true <->
  m !! k = Some true \/ exists a, GyroDetector.loser ai aj = Some a /\ aid a = k.
Proof.
  unfold GyroDetector.mark_pair.
  destruct (GyroDetector.loser ai aj) as [a|].
  - rewrite lookup_insert. destruct (decide (aid a = k)) as [E|E].
    + split; [intros _; right; eauto|reflexivity].
    + split; [tauto|]. intros [H|(a' & [= <-] & H)]; [exact H|contradiction].
  - split; [tauto|]. intros [H|(a' & [=] & _)]. exact H.
Qed.

Lemma mark_row_true (ai : Armor) (rest : list Armor) (m : gmap nat bool) (k : nat) :
  GyroDetector.mark_row ai rest m !! k = Some true <->
  m !! k = Some true \/
  exists (j : nat) (aj a : Armor),
    rest !! j = Some aj /\ GyroDetector.loser ai aj = Some a /\ aid a = k.
Proof.
  unfold GyroDetector.mark_row. revert m.
  induction rest as [|b rest IH]; simpl; intros m.
  - split; [tauto|]. intros [H|(j & aj & a & H & _)]; [exact H|].
    by rewrite lookup_nil in H.
  - rewrite IH, mark_pair_true. split.
    + intros [[H|(a & Hl & Hk)]|(j & aj & a & Hj & Hl & Hk)].
      * by left.
      * right. exists 0%nat, b, a. auto.
      * right. exists (S j), aj, a. auto.
    + intros [H|(j & aj & a & Hj & Hl & Hk)]; [tauto|].
      destruct j as [|j]; simpl in Hj.
      * injection Hj as ->. left. right. eauto.
      * right. exists j, aj, a. auto.
Qed.

Lemma marked_cons (ai : Armor) (rest : list Armor) (k : nat) :
  marked (ai :: rest) k <->
  (exists (j : nat) (aj a : Armor),
     rest !! j = Some aj /\ GyroDetector.loser ai aj = Some a /\ aid a = k) \/
  marked rest k.
Proof.
  unfold marked. split.
  - intros (i & j & bi & bj & a & Hlt & Hi & Hj & Hl & Hk).
    destruct j as [|j]; [lia|]. simpl in Hj.
    destruct i as [|i]; simpl in Hi.
    + injection Hi as ->. left. exists j, bj, a. auto.
    + right. exists i, j, bi, bj, a. repeat split; auto. lia.
  - intros [(j & aj & a & Hj & Hl & Hk)|(i & j & bi & bj & a & Hlt & Hi & Hj & Hl & Hk)].
    + exists 0%nat, (S j), ai, aj, a. repeat split; auto. lia.
    + exists (S i), (S j), bi, bj, a. repeat split; auto. lia.
Qed.

Lemma mark_all_true (armors : list Armor) (m : gmap nat bool) (k : nat) :
  GyroDetector.mark_all armors m !! k = Some true <->
  m !! k = Some true \/ marked armors k.
Proof.
  revert m. induction armors as [|ai rest IH]; simpl; intros m.
  - split; [tauto|]. intros [H|(i & j & bi & bj & a & _ & Hi & _)]; [exact H|].
    by rewrite lookup_nil in Hi.
  - rewrite IH, mark_row_true, marked_cons. tauto.
Qed.

(** The predicate of [remove_if] after the marking pass. *)
Lemma removable_marked (armors : list Armor) (val : Armor) :
  GyroDetector.removable
    (GyroDetector.mark_all armors (GyroDetector.init_map armors)) val = true <->
  marked armors (aid val).
Proof.
  unfold GyroDetector.removable.
  destruct (GyroDetector.mark_all armors (GyroDetector.init_map armors) !! aid val)
    as [b|] eqn:E; simpl.
  - destruct b.
    + apply mark_all_true in E. destruct E as [E|E]; [|tauto].
      apply init_map_not_true in E. by rewrite lookup_empty in E.
    + split; [discriminate|]. intros H.
      assert (Some false = Some true); [|discriminate].
      rewrite <- E. apply mark_all_true. by right.
  - split; [discriminate|]. intros H.
    assert (@None bool = Some true); [|discriminate].
    rewrite <- E. apply mark_all_true. by right.
Qed.

Lemma marked_short (armors : list Armor) (k : nat) :
  (length armors < 2)%nat -> ~ marked armors k.
Proof.
  intros Hlen (i & j & ai & aj & a & Hlt & Hi & Hj & _).
  apply lookup_lt_Some in Hj. lia.
Qed.

(** What [eraseErrorArmors] keeps. *)
Lemma eraseErrorArmors_In (armors : list Armor) (a : Armor) :
  In a (GyroDetector.eraseErrorArmors armors) <->
  In a armors /\ ~ marked armors (aid a).
Proof.
  unfold GyroDetector.eraseErrorArmors.
  destruct (length armors <? 2)%nat eqn:E.
  - apply Nat.ltb_lt in E. split; [|tauto].
    intros H. split; [exact H|]. by apply marked_short.
  - rewrite List.filter_In, negb_true_iff, <- removable_marked.
    destruct (GyroDetector.removable _ a); intuition congruence.
Qed.

Lemma filter_sublist {A} (f : A -> bool) (l : list A) : sublist (List.filter f l) l.
Proof.
  induction l as [|x l IH]; simpl; [constructor|].
  destruct (f x); by constructor.
Qed.


Lemma share_same_sym (a b : Armor) :
  GyroDetector.share_same a b = GyroDetector.share_same b a.
Proof.
  unfold GyroDetector.share_same.
  by rewrite (Nat.eqb_sym (bid (at0 a))), (Nat.eqb_sym (bid (at1 a))).
Qed.

Lemma share_cross_sym (a b : Armor) :
  GyroDetector.share_cross a b = GyroDetector.share_cross b a.
Proof.
  unfold GyroDetector.share_cross.
  rewrite (Nat.eqb_sym (bid (at0 a))), (Nat.eqb_sym (bid (at1 a))).
  apply orb_comm.
Qed.

(** Under the invariant of the armors, a pair that shares a blob in opposite
    roles does not share one in the same role: the second test of the loop
    body is reached. *)
Lemma cross_not_same (a b : Armor) :
  distinct_blobs a -> distinct_blobs b ->
  GyroDetector.share_cross a b = true -> GyroDetector.share_same a b = false.
Proof.
  unfold distinct_blobs, GyroDetector.share_cross, GyroDetector.share_same.
  intros Ha Hb H. apply orb_true_iff in H.
  apply orb_false_iff. rewrite !Nat.eqb_neq.
  rewrite !Nat.eqb_eq in H. destruct H as [H|H]; split; congruence.
Qed.

Lemma loser_wider (ai aj : Armor) :
  GyroDetector.share_same ai aj = true -> awidth aj < awidth ai ->
  GyroDetector.loser ai aj = Some ai /\ GyroDetector.loser aj ai = Some ai.
Proof.
  intros Hs Hw. unfold GyroDetector.loser.
  rewrite <- (share_same_sym ai aj), Hs.
  assert (H1 : Qgtb (awidth ai) (awidth aj) = true) by by apply Qgtb_true.
  assert (H2 : Qgtb (awidth aj) (awidth ai) = false)
    by by apply Qgtb_false, Qlt_le_weak.
  by rewrite H1, H2.
Qed.

Lemma loser_larger_error (ai aj : Armor) :
  GyroDetector.share_same ai aj = false ->
  GyroDetector.share_cross ai aj = true -> aerror aj < aerror ai ->
  GyroDetector.loser ai aj = Some ai /\ GyroDetector.loser aj ai = Some ai.
Proof.
  intros Hs Hc He. unfold GyroDetector.loser.
  rewrite <- (share_same_sym ai aj), <- (share_cross_sym ai aj), Hs, Hc.
  assert (H1 : Qgtb (aerror ai) (aerror aj) = true) by by apply Qgtb_true.
  assert (H2 : Qgtb (aerror aj) (aerror ai) = false)
    by by apply Qgtb_false, Qlt_le_weak.
  by rewrite H1, H2.
Qed.

(** On a tie the loser is the second armor of the pair. *)
Lemma loser_tie_width (ai aj : Armor) :
  GyroDetector.share_same ai aj = true -> awidth ai == awidth aj ->
  GyroDetector.loser ai aj = Some aj.
Proof.
  intros Hs Hw. unfold GyroDetector.loser. rewrite Hs.
  assert (H : Qgtb (awidth ai) (awidth aj) = false)
    by (apply Qgtb_false; rewrite Hw; apply Qle_refl).
  by rewrite H.
Qed.

Lemma loser_tie_error (ai aj : Armor) :
  GyroDetector.share_same ai aj = false ->
  GyroDetector.share_cross ai aj = true -> aerror ai == aerror aj ->
  GyroDetector.loser ai aj = Some aj.
Proof.
  intros Hs Hc He. unfold GyroDetector.loser. rewrite Hs, Hc.
  assert (H : Qgtb (aerror ai) (aerror aj) = false)
    by (apply Qgtb_false; rewrite He; apply Qle_refl).
  by rewrite H.
Qed.

(** A loser of a pair is marked wherever the two armors stand in the list. *)
Lemma marked_pair (armors : list Armor) (i j : nat) (ai aj a : Armor) :
  i <> j -> armors !! i = Some ai -> armors !! j = Some aj ->
  GyroDetector.loser ai aj = Some a -> GyroDetector.loser aj ai = Some a ->
  marked armors (aid a).
Proof.
  intros Hne Hi Hj H1 H2.
  destruct (Nat.lt_ge_cases i j) as [Hlt|Hge].
  - exists i, j, ai, aj, a. auto.
  - exists j, i, aj, ai, a. repeat split; auto. lia.
Qed.



(** The pass is not iterated: [armor34] loses against [armor23], which itself
    loses against [armor12]; [armor34] is dropped although it has no conflict
    with what remains. *)
Example eraseErrorArmors_not_iterated :
  GyroDetector.eraseErrorArmors [armor12; armor23; armor34] = [armor12] /\
  GyroDetector.eraseErrorArmors [armor12; armor34] = [armor12; armor34].
Proof. split; vm_compute; reflexivity. Qed.

(** ** Conflict resolution and the order of the input *)

Lemma marked_two (a b : Armor) (k : nat) :
  marked [a; b] k <-> exists x, GyroDetector.loser a b = Some x /\ aid x = k.
Proof.
  rewrite marked_cons. split.
  - intros [(j & aj & x & Hj & Hl & Hk)|Hm].
    + destruct j as [|j]; simpl in Hj; [|by rewrite lookup_nil in Hj].
      injection Hj as <-. eauto.
    + exfalso. revert Hm. apply marked_short. simpl. lia.
  - intros (x & Hl & Hk). left. exists 0%nat, b, x. auto.
Qed.

Lemma removable_false (armors : list Armor) (val : Armor) :
  ~ marked armors (aid val) ->
  GyroDetector.removable
    (GyroDetector.mark_all armors (GyroDetector.init_map armors)) val = false.
Proof.
  intros H. apply not_true_is_false. by rewrite removable_marked.
Qed.

(** Of two armors, the one that the pair marks is dropped. *)
Lemma eraseErrorArmors_pair_second (a b : Armor) :
  aid a <> aid b -> GyroDetector.loser a b = Some b ->
  GyroDetector.eraseErrorArmors [a; b] = [a].
Proof.
  intros Hne Hl. unfold GyroDetector.eraseErrorArmors.
  change (length [a; b] <? 2)%nat with false. cbv iota. cbn [List.filter].
  rewrite removable_false.
  - replace (GyroDetector.removable _ b) with true; [reflexivity|].
    symmetry. apply removable_marked, marked_two. eauto.
  - rewrite marked_two. intros (x & Hx & Hk). congruence.
Qed.

Lemma eraseErrorArmors_pair_first (a b : Armor) :
  aid a <> aid b -> GyroDetector.loser a b = Some a ->
  GyroDetector.eraseErrorArmors [a; b] = [b].
Proof.
  intros Hne Hl. unfold GyroDetector.eraseErrorArmors.
  change (length [a; b] <? 2)%nat with false. cbv iota. cbn [List.filter].
  replace (GyroDetector.removable _ a) with true.
  - rewrite removable_false; [reflexivity|].
    rewrite marked_two. intros (x & Hx & Hk). congruence.
  - symmetry. apply removable_marked, marked_two. eauto.
Qed.

(** C3, as stated, fails: with equal widths the armor that comes second is
    dropped, so the survivor changes with the order of the input. *)
Lemma eraseErrorArmors_order_counterexample :
  GyroDetector.share_same tie_a tie_b = true /\
  awidth tie_a == awidth tie_b /\
  GyroDetector.eraseErrorArmors [tie_a; tie_b] = [tie_a] /\
  GyroDetector.eraseErrorArmors [tie_b; tie_a] = [tie_b] /\
  ~ (GyroDetector.eraseErrorArmors [tie_a; tie_b]
       ≡ₚ GyroDetector.eraseErrorArmors [tie_b; tie_a]).
Proof.
  assert (H1 : GyroDetector.eraseErrorArmors [tie_a; tie_b] = [tie_a])
    by (vm_compute; reflexivity).
  assert (H2 : GyroDetector.eraseErrorArmors [tie_b; tie_a] = [tie_b])
    by (vm_compute; reflexivity).
  repeat split; try reflexivity; try assumption.
  rewrite H1, H2. intros Hp. apply Permutation_length_1 in Hp. discriminate.
Qed.

(** C3 (amended).  Two armors [a] and [b] at different addresses, each with
    two different blobs, share a blob.  If they share it in the same role
    and [a] is strictly narrower, or in opposite roles and [a] has the
    strictly smaller error, then [a] survives and [b] is dropped in both
    orders of the input, and [b] is dropped from every list that holds
    both.  If the widths (same role) or the errors (opposite roles) are
    equal, the armor that comes first in the input survives. *)
Theorem eraseErrorArmors_order (a b : Armor) :
  aid a <> aid b -> distinct_blobs a -> distinct_blobs b ->
  (GyroDetector.share_same a b = true -> awidth a < awidth b ->
     GyroDetector.eraseErrorArmors [a; b] = [a] /\
     GyroDetector.eraseErrorArmors [b; a] = [a] /\
     forall armors, In a armors -> In b armors ->
       ~ In b (GyroDetector.eraseErrorArmors armors)) /\
  (GyroDetector.share_cross a b = true -> aerror a < aerror b ->
     GyroDetector.eraseErrorArmors [a; b] = [a] /\
     GyroDetector.eraseErrorArmors [b; a] = [a] /\
     forall armors, In a armors -> In b armors ->
       ~ In b (GyroDetector.eraseErrorArmors armors)) /\
  (GyroDetector.share_same a b = true -> awidth a == awidth b ->
     GyroDetector.eraseErrorArmors [a; b] = [a] /\
     GyroDetector.eraseErrorArmors [b; a] = [b]) /\
  (GyroDetector.share_cross a b = true -> aerror a == aerror b ->
     GyroDetector.eraseErrorArmors [a; b] = [a] /\
     GyroDetector.eraseErrorArmors [b; a] = [b]).
Proof.
  intros Hne Ha Hb.
  assert (Hne' : aid b <> aid a) by congruence.
  assert (Hgen : forall armors : list Armor,
    GyroDetector.loser a b = Some b -> GyroDetector.loser b a = Some b ->
    In a armors -> In b armors ->
    ~ In b (GyroDetector.eraseErrorArmors armors)).
  { intros armors H1 H2 Hia Hib.
    apply list_elem_of_In, list_elem_of_lookup in Hia.
    apply list_elem_of_In, list_elem_of_lookup in Hib.
    destruct Hia as [i Hi]. destruct Hib as [j Hj].
    rewrite eraseErrorArmors_In. intros [_ Hn]. apply Hn.
    apply (marked_pair armors i j a b b); auto.
    intros ->. rewrite Hi in Hj. injection Hj as ->. by apply Hne. }
  split; [|split; [|split]].
  - intros Hs Hw. rewrite share_same_sym in Hs.
    destruct (loser_wider b a Hs Hw) as [H1 H2].
    repeat split.
    + by apply eraseErrorArmors_pair_second.
    + by apply eraseErrorArmors_pair_first.
    + intros armors. by apply Hgen.
  - intros Hc He.
    assert (Hs : GyroDetector.share_same b a = false).
    { rewrite share_same_sym. by apply cross_not_same. }
    rewrite share_cross_sym in Hc.
    destruct (loser_larger_error b a Hs Hc He) as [H1 H2].
    repeat split.
    + by apply eraseErrorArmors_pair_second.
    + by apply eraseErrorArmors_pair_first.
    + intros armors. by apply Hgen.
  - intros Hs Hw. split.
    + apply eraseErrorArmors_pair_second; [exact Hne|].
      by apply loser_tie_width.
    + apply eraseErrorArmors_pair_second; [exact Hne'|].
      apply loser_tie_width; [by rewrite share_same_sym|by symmetry].
  - intros Hc He.
    assert (Hs : GyroDetector.share_same a b = false) by by apply cross_not_same.
    split.
    + apply eraseErrorArmors_pair_second; [exact Hne|].
      by apply loser_tie_error.
    + apply eraseErrorArmors_pair_second; [exact Hne'|].
      apply loser_tie_error;
        [by rewrite share_same_sym|by rewrite share_cross_sym|by symmetry].
Qed.

Lemma eraseErrorArmors_order_witness :
  GyroDetector.eraseErrorArmors [armor12; armor13] = [armor12] /\
  GyroDetector.eraseErrorArmors [armor13; armor12] = [armor12].
Proof.
  assert (Hne : aid armor12 <> aid armor13) by (vm_compute; discriminate).
  assert (Ha : distinct_blobs armor12) by (vm_compute; discriminate).
  assert (Hb : distinct_blobs armor13) by (vm_compute; discriminate).
  destruct (eraseErrorArmors_order armor12 armor13 Hne Ha Hb) as [Hsame _].
  destruct Hsame as (H1 & H2 & _); [reflexivity|reflexivity|].
  split; assumption.
Defined.

(** ** The brightness samples *)

(** X24.  What the two conditionals of each coordinate do establish on an
    image with at least one row and one column: the sample lies in
    [0 .. cols] and [0 .. rows], bounds included. *)
Lemma sample_range (src : GyroDetector.Mat) (blob : LightBlob) (i : Z) :
  (1 <= GyroDetector.cols src)%Z -> (1 <= GyroDetector.rows src)%Z ->
  (0 <= GyroDetector.sample_x src blob i <= GyroDetector.cols src)%Z /\
  (0 <= GyroDetector.sample_y src blob <= GyroDetector.rows src)%Z.
Proof.
  intros Hc Hr. unfold GyroDetector.sample_x, GyroDetector.sample_y. split.
  - destruct (Z.gtb_spec (Qtrunc (px (bcenter blob) - bheight blob * inject_Z i / 5))
                (GyroDetector.cols src)) as [H|H].
    + destruct (Z.ltb_spec (GyroDetector.cols src - 1) 0); lia.
    + destruct (Z.ltb_spec (Qtrunc (px (bcenter blob) - bheight blob * inject_Z i / 5)) 0);
        lia.
  - destruct (Z.ltb_spec (Qtrunc (py (bcenter blob))) 0) as [H|H].
    + destruct (Z.gtb_spec 1 (GyroDetector.rows src)); lia.
    + destruct (Z.gtb_spec (Qtrunc (py (bcenter blob))) (GyroDetector.rows src)); lia.
Qed.

(** C8 (samples within the image), at a failing input.  A blob of height 10
    centered at [x = 630] in an image of 640 columns and 480 rows: offset
    [-5] is one of the offsets of the loop, and its sample is column 640,
    which is not in [0 .. cols - 1]. *)
Theorem sample_x_at_cols :
  let src := GyroDetector.mkMat 640 480 (fun _ _ => (0, 0, 0)%Z) in
  let blob := blob_at 7 630 10 in
  In (-5)%Z GyroDetector.offsets /\
  GyroDetector.sample_x src blob (-5) = 640%Z /\
  ~ (0 <= GyroDetector.sample_x src blob (-5) <= GyroDetector.cols src - 1)%Z.
Proof.
  split; [simpl; tauto|]. split; [vm_compute; reflexivity|].
  vm_compute. intros [_ H]. apply H. reflexivity.
Qed.

(** ** find *)

Section FindFacts.
Variable Contour : Type.
Variable findContours : GyroDetector.Mat -> list Contour.
Variable contourArea : Contour -> Q.
Variable MIN_CONTOUR_AREA : Q.
Variable make_feature : Contour -> option LightBlob.
Variable make_combo : LightBlob -> LightBlob -> option Armor.
Variable isContainBlob : LightBlob -> Armor -> bool.

Local Abbreviation findLightBlobs :=
  (GyroDetector.findLightBlobs Contour findContours contourArea
     MIN_CONTOUR_AREA make_feature).
Local Abbreviation find :=
  (GyroDetector.find Contour findContours contourArea MIN_CONTOUR_AREA
     make_feature make_combo isContainBlob).

(** The blobs that pass the area filter. *)
Lemma collect_blobs_In (contours : list Contour) (b : LightBlob) :
  In b (GyroDetector.collect_blobs Contour contourArea MIN_CONTOUR_AREA
          make_feature contours) <->
  exists contour, In contour contours /\
    ~ contourArea contour < MIN_CONTOUR_AREA /\ make_feature contour = Some b.
Proof.
  induction contours as [|c l IH]; simpl.
  - split; [tauto|]. intros (c & [] & _).
  - destruct (Qltb (contourArea c) MIN_CONTOUR_AREA) eqn:E.
    + apply Qltb_true in E. rewrite IH. split.
      * intros (c' & H & H'). eauto.
      * intros (c' & [->|H] & Hn & Hm); [contradiction|eauto].
    + apply Qltb_false in E. apply Qle_not_lt in E.
      destruct (make_feature c) as [p|] eqn:Em; simpl; rewrite IH; split.
      * intros [<-|(c' & H & H')]; [exists c; auto|]. exists c'. tauto.
      * intros (c' & [->|H] & Hn & Hm); [left; congruence|right; eauto].
      * intros (c' & H & H'). eauto.
      * intros (c' & [->|H] & Hn & Hm); [congruence|eauto].
Qed.

(** C7 (amended).  Let [blobs] be the features of the frame that survive
    the area filter and the brightness filter.  When there are at least two
    of them, [find] appends them all, sorted, to the feature list, so each
    of them is in the list returned.  When there are fewer than two, [find]
    returns the feature list and the combo list it was given. *)
Theorem find_features (src : GyroDetector.Mat)
    (features : list LightBlob) (combos : list Armor) :
  let blobs := GyroDetector.eraseBrightBlobs src (findLightBlobs src) in
  (forall b, In b blobs <->
     exists contour, In contour (findContours src) /\
       ~ contourArea contour < MIN_CONTOUR_AREA /\
       make_feature contour = Some b /\
       ~ (GyroDetector.total_brightness src b > 1100)%Z) /\
  ((2 <= length blobs)%nat ->
     fst (find src features combos)
       = features ++ std_sort GyroDetector.blob_less blobs /\
     forall b, In b blobs -> In b (fst (find src features combos))) /\
  ((length blobs < 2)%nat -> find src features combos = (features, combos)).
Proof.
  intros blobs. split; [|split].
  - intros b. unfold blobs, GyroDetector.eraseBrightBlobs.
    rewrite List.filter_In. unfold GyroDetector.findLightBlobs.
    rewrite collect_blobs_In, negb_true_iff.
    destruct (Z.gtb_spec (GyroDetector.total_brightness src b) 1100) as [Hb|Hb];
      simpl.
    + split.
      * intros [_ H']. discriminate.
      * intros (c & _ & _ & _ & Hn). lia.
    + split.
      * intros [(c & H1 & H2 & H3) _]. exists c. repeat split; auto; lia.
      * intros (c & H1 & H2 & H3 & _). split; eauto.
  - intros Hlen.
    assert (Hfst : fst (find src features combos)
                   = features ++ std_sort GyroDetector.blob_less blobs).
    { unfold GyroDetector.find. fold blobs.
      apply Nat.leb_le in Hlen. rewrite Hlen.
      unfold GyroDetector.findArmors.
      destruct (length (std_sort GyroDetector.blob_less blobs) <? 2)%nat;
        reflexivity. }
    split; [exact Hfst|].
    intros b Hb. rewrite Hfst. apply in_or_app. right.
    eapply Permutation_in; [symmetry; apply std_sort_perm|exact Hb].
  - intros Hlen. unfold GyroDetector.find. fold blobs.
    replace (2 <=? length blobs)%nat with false; [reflexivity|].
    symmetry. apply Nat.leb_gt, Hlen.
Qed.
End FindFacts.

(** [find] on three contours: one below the minimal area, two that become
    the blobs at 140 and 100. *)
Example find_sample :
  sample_find [(blob140, 40); (blob120, 5); (blob100, 30)] [] []
  = ([blob100; blob140], [setType UNKNOWN armor13]).
Proof. vm_compute. reflexivity. Qed.

Lemma find_features_witness :
  In blob140 (fst (sample_find [(blob140, 40); (blob120, 5); (blob100, 30)] [] [])) /\
  sample_find [(blob140, 40)] [blob120] [] = ([blob120], []).
Proof.
  pose proof (find_features (LightBlob * Q)%type
                (fun _ => [(blob140, 40); (blob120, 5); (blob100, 30)])
                sample_area 10 sample_make_feature sample_make_combo
                sample_isContainBlob
                dark [] [])
    as (_ & Hmany & _).
  pose proof (find_features (LightBlob * Q)%type
                (fun _ => [(blob140, 40)])
                sample_area 10 sample_make_feature sample_make_combo
                sample_isContainBlob
                dark [blob120] [])
    as (_ & _ & Hfew).
  split.
  - apply Hmany; [vm_compute; lia|vm_compute; tauto].
  - apply Hfew. vm_compute. lia.
Defined.

(** C7, as stated, fails: a frame whose only contour becomes a blob that
    passes both filters; [find] returns no feature. *)
Lemma find_single_feature_counterexample :
  GyroDetector.eraseBrightBlobs dark
    (GyroDetector.findLightBlobs (LightBlob * Q)%type (fun _ => [(blob140, 40)])
       sample_area 10 sample_make_feature dark)
  = [blob140] /\
  sample_find [(blob140, 40)] [] [] = ([], []) /\
  ~ In blob140 (fst (sample_find [(blob140, 40)] [] [])).
Proof.
  split; [vm_compute; reflexivity|].
  split; [vm_compute; reflexivity|].
  vm_compute. tauto.
Qed.

(** ** The vanish counter *)

Section CounterFacts.
Variable bits : Z.
Hypothesis bits_nonneg : (0 <= bits)%Z.

Local Abbreviation updateVanishState := (GyroTracker.updateVanishState bits).
Local Abbreviation updates := (GyroTracker.updates bits).

Lemma updates_app (l1 l2 : list GyroTracker.VanishState) (t : GyroTracker.Tracker) :
  updates (l1 ++ l2) t = updates l2 (updates l1 t).
Proof. unfold GyroTracker.updates. apply fold_left_app. Qed.

(** The counter stays a [bits]-bit number. *)
Lemma updateVanishState_range (state : GyroTracker.VanishState)
    (t : GyroTracker.Tracker) :
  (0 <= GyroTracker.vanish_num (updateVanishState state t) < 2 ^ bits)%Z.
Proof.
  assert (0 < 2 ^ bits)%Z by (apply Z.pow_pos_nonneg; lia).
  destruct state; simpl; [apply Z.mod_pos_bound|]; lia.
Qed.

Lemma updates_range (l : list GyroTracker.VanishState) (t : GyroTracker.Tracker) :
  (0 <= GyroTracker.vanish_num t < 2 ^ bits)%Z ->
  (0 <= GyroTracker.vanish_num (updates l t) < 2 ^ bits)%Z.
Proof.
  revert t. induction l as [|s l IH]; simpl; intros t Ht; [exact Ht|].
  apply IH, updateVanishState_range.
Qed.

Lemma updates_vanish (N : nat) (t : GyroTracker.Tracker) :
  GyroTracker.vanish_num (updates (repeat GyroTracker.VANISH N) t)
  = ((GyroTracker.vanish_num t + Z.of_nat N) mod 2 ^ bits)%Z \/
  (N = 0%nat /\ updates (repeat GyroTracker.VANISH N) t = t).
Proof.
  revert t. induction N as [|N IH]; intros t; [right; auto|].
  left. cbn [repeat]. change (updates (GyroTracker.VANISH :: ?l) t)
    with (updates l (updateVanishState GyroTracker.VANISH t)).
  destruct (IH (updateVanishState GyroTracker.VANISH t)) as [->|[-> ->]].
  - cbn [GyroTracker.vanish_num GyroTracker.updateVanishState].
    rewrite Zplus_mod_idemp_l. f_equal. lia.
  - reflexivity.
Qed.

(** Everything but the counter is left as it is. *)
Lemma updates_frame (l : list GyroTracker.VanishState) (t : GyroTracker.Tracker) :
  GyroTracker.sample_time (updates l t) = GyroTracker.sample_time t /\
  GyroTracker.pose (updates l t) = GyroTracker.pose t /\
  GyroTracker.rotspeed (updates l t) = GyroTracker.rotspeed t /\
  GyroTracker.type_deque (updates l t) = GyroTracker.type_deque t.
Proof.
  revert t. induction l as [|s l IH]; intros t; [auto|].
  change (updates (s :: l) t) with (updates l (updateVanishState s t)).
  destruct (IH (updateVanishState s t)) as (-> & -> & -> & ->). auto.
Qed.

(** C4 (vanish counter).  After any sequence of updates [before], [N]
    consecutive updates with [VANISH] add [N] to the counter (as long as the
    [bits]-bit counter does not overflow; modulo [2 ^ bits] in general), and
    one more update with [APPEAR] sets it to 0 whatever it was.  The other
    fields of the tracker do not change. *)
Theorem updateVanishState_counter (t : GyroTracker.Tracker)
    (before : list GyroTracker.VanishState) (N : nat) :
  (0 <= GyroTracker.vanish_num t < 2 ^ bits)%Z ->
  let t0 := updates before t in
  let tN := updates (before ++ repeat GyroTracker.VANISH N) t in
  let t1 := updates (before ++ repeat GyroTracker.VANISH N ++ [GyroTracker.APPEAR]) t in
  GyroTracker.vanish_num tN
    = ((GyroTracker.vanish_num t0 + Z.of_nat N) mod 2 ^ bits)%Z /\
  ((GyroTracker.vanish_num t0 + Z.of_nat N < 2 ^ bits)%Z ->
     GyroTracker.vanish_num tN = (GyroTracker.vanish_num t0 + Z.of_nat N)%Z) /\
  GyroTracker.vanish_num t1 = 0%Z /\
  (forall state t', GyroTracker.vanish_num
     (updateVanishState state t')
     = match state with
       | GyroTracker.VANISH => ((GyroTracker.vanish_num t' + 1) mod 2 ^ bits)%Z
       | GyroTracker.APPEAR => 0%Z
       end) /\
  GyroTracker.sample_time t1 = GyroTracker.sample_time t /\
  GyroTracker.pose t1 = GyroTracker.pose t /\
  GyroTracker.rotspeed t1 = GyroTracker.rotspeed t /\
  GyroTracker.type_deque t1 = GyroTracker.type_deque t.
Proof.
  intros Ht t0 tN t1.
  assert (H0 : (0 <= GyroTracker.vanish_num t0 < 2 ^ bits)%Z)
    by by apply updates_range.
  assert (HN : GyroTracker.vanish_num tN
    = ((GyroTracker.vanish_num t0 + Z.of_nat N) mod 2 ^ bits)%Z).
  { unfold tN. rewrite updates_app. fold t0.
    destruct (updates_vanish N t0) as [H|[-> ->]]; [exact H|].
    cbn [repeat GyroTracker.updates fold_left].
    rewrite Z.add_0_r, Z.mod_small; [reflexivity|exact H0]. }
  split; [exact HN|]. split.
  { intros Hlt. rewrite HN. apply Z.mod_small. lia. }
  split.
  { unfold t1. rewrite app_assoc, updates_app. reflexivity. }
  split.
  { intros [] t'; reflexivity. }
  apply updates_frame.
Qed.
End CounterFacts.

(** Three missed frames on a 32-bit counter that stands at 7. *)
Lemma updateVanishState_counter_witness :
  GyroTracker.vanish_num
    (GyroTracker.updates 32 (repeat GyroTracker.VANISH 3) sample_tracker) = 10%Z /\
  GyroTracker.vanish_num
    (GyroTracker.updates 32 (repeat GyroTracker.VANISH 3 ++ [GyroTracker.APPEAR])
       sample_tracker) = 0%Z.
Proof.
  assert (Hb : (0 <= 32)%Z) by lia.
  assert (Ht : (0 <= GyroTracker.vanish_num sample_tracker < 2 ^ 32)%Z)
    by (simpl; lia).
  destruct (updateVanishState_counter 32 Hb sample_tracker [] 3 Ht)
    as (_ & Hexact & Hreset & _).
  split.
  - apply Hexact. simpl. lia.
  - exact Hreset.
Defined.

(** C4, as stated, fails: on a 32-bit counter that stands at 4294967295
    one more missed frame gives 0, not 4294967296. *)
Lemma updateVanishState_counter_counterexample :
  GyroTracker.vanish_num full_tracker = 4294967295%Z /\
  GyroTracker.vanish_num
    (GyroTracker.updates 32 (repeat GyroTracker.VANISH 1) full_tracker) = 0%Z /\
  GyroTracker.vanish_num
    (GyroTracker.updates 32 (repeat GyroTracker.VANISH 1) full_tracker)
  <> (GyroTracker.vanish_num full_tracker + 1)%Z.
Proof.
  split; [reflexivity|]. split; [vm_compute; reflexivity|].
  vm_compute. discriminate.
Qed.

(** ** Rounds and the total angle *)

Section RuneFacts.
Context {KF22f : Type}.
Variable angle_of : KF22f -> Q.
Variable predict : Q -> KF22f -> KF22f.
Variable correct : Q -> KF22f -> KF22f.

Local Abbreviation calculateTotalAngle :=
  (RuneTracker.calculateTotalAngle KF22f angle_of).
Local Abbreviation update := (RuneTracker.update KF22f angle_of predict correct).
Local Abbreviation observe := (RuneTracker.observe KF22f angle_of predict correct).

(** The total angle is the wrapped angle plus the new round counter times
    the full revolution, whatever the filter holds. *)
Lemma calculateTotalAngle_total (b : Q) (tracker : RuneTracker.Tracker KF22f) :
  snd (calculateTotalAngle b tracker)
  = b + inject_Z (fst (calculateTotalAngle b tracker)) * RuneTracker.full_revolution.
Proof. reflexivity. Qed.

(** The round counter moves by at most one. *)
Lemma calculateTotalAngle_round (b : Q) (tracker : RuneTracker.Tracker KF22f) :
  let delta := b + inject_Z (RuneTracker.round tracker) * RuneTracker.full_revolution
               - angle_of (RuneTracker.filter tracker) in
  (delta < - RuneTracker.half_revolution /\
   fst (calculateTotalAngle b tracker) = (RuneTracker.round tracker + 1)%Z) \/
  (RuneTracker.half_revolution < delta /\
   fst (calculateTotalAngle b tracker) = (RuneTracker.round tracker - 1)%Z) \/
  (- RuneTracker.half_revolution <= delta /\ delta <= RuneTracker.half_revolution /\
   fst (calculateTotalAngle b tracker) = RuneTracker.round tracker).
Proof.
  intros delta. unfold RuneTracker.calculateTotalAngle. fold delta. cbn [fst].
  destruct (Qltb delta (- RuneTracker.half_revolution)) eqn:E1.
  - left. apply Qltb_true in E1. auto.
  - apply Qltb_false in E1.
    destruct (Qgtb delta RuneTracker.half_revolution) eqn:E2.
    + right. left. apply Qgtb_true in E2. auto.
    + right. right. apply Qgtb_false in E2. auto.
Qed.

(** A vanished frame leaves the round counter and takes the predicted
    angle. *)
Lemma update_vanished (t : Q) (tracker : RuneTracker.Tracker KF22f) :
  RuneTracker.round (update t None tracker) = RuneTracker.round tracker /\
  RuneTracker.filter (update t None tracker)
    = predict t (RuneTracker.filter tracker) /\
  RuneTracker.angle (update t None tracker)
    = angle_of (predict t (RuneTracker.filter tracker)).
Proof. repeat split. Qed.

(** At an observation the filter is predicted and then corrected with the
    total angle, which is the angle the tracker takes. *)
Lemma update_feeds_filter (t b : Q) (tracker : RuneTracker.Tracker KF22f) :
  RuneTracker.filter (update t (Some b) tracker)
    = correct (RuneTracker.angle (update t (Some b) tracker))
        (predict t (RuneTracker.filter tracker)) /\
  RuneTracker.angle (update t (Some b) tracker)
    = snd (calculateTotalAngle b tracker) /\
  RuneTracker.round (update t (Some b) tracker)
    = fst (calculateTotalAngle b tracker).
Proof.
  unfold RuneTracker.update.
  destruct (calculateTotalAngle b tracker) as [round' total]. repeat split.
Qed.

(** An observation that the filter follows. *)
Lemma update_observed (a b t : Q) (tracker : RuneTracker.Tracker KF22f) :
  0 <= a -> a < RuneTracker.full_revolution ->
  0 <= b -> b < RuneTracker.full_revolution -> ~ b == a ->
  - RuneTracker.half_revolution
    <= b + inject_Z (next_round a (RuneTracker.round tracker) b)
           * RuneTracker.full_revolution
       - angle_of (RuneTracker.filter tracker) ->
  b + inject_Z (next_round a (RuneTracker.round tracker) b)
        * RuneTracker.full_revolution
    - angle_of (RuneTracker.filter tracker)
    < RuneTracker.half_revolution ->
  RuneTracker.round (update t (Some b) tracker)
    = next_round a (RuneTracker.round tracker) b /\
  RuneTracker.angle (update t (Some b) tracker)
    == b + inject_Z (RuneTracker.round (update t (Some b) tracker))
           * RuneTracker.full_revolution /\
  a + inject_Z (RuneTracker.round tracker) * RuneTracker.full_revolution
    < RuneTracker.angle (update t (Some b) tracker).
Proof.
  intros Ha0 Ha1 Hb0 Hb1 Hne Hlo Hhi.
  assert (Hround : fst (calculateTotalAngle b tracker)
                   = next_round a (RuneTracker.round tracker) b).
  { destruct (calculateTotalAngle_round b tracker) as [[Hd ->]|[[Hd ->]|(Hd1 & Hd2 & ->)]];
      revert Hlo Hhi; unfold next_round;
      unfold RuneTracker.half_revolution, RuneTracker.full_revolution in *;
      destruct (Qltb b a) eqn:E; try reflexivity;
      rewrite ?inject_Z_plus; change (inject_Z 1) with 1; intros Hlo Hhi;
      exfalso; lra. }
  unfold RuneTracker.update.
  destruct (calculateTotalAngle b tracker) as [round' total] eqn:Ecalc.
  pose proof (calculateTotalAngle_total b tracker) as Htotal.
  rewrite Ecalc in Htotal. cbn [fst snd] in Hround, Htotal.
  cbn [RuneTracker.round RuneTracker.angle]. subst round' total.
  split; [reflexivity|]. split; [reflexivity|].
  unfold next_round, RuneTracker.full_revolution in *.
  destruct (Qltb b a) eqn:E.
  - rewrite inject_Z_plus. change (inject_Z 1) with 1. lra.
  - apply Qltb_false in E.
    assert (a < b) by (apply Qle_lteq in E; destruct E as [E|E]; [exact E|]; by symmetry in E).
    lra.
Qed.

(** C5 (angle unwrapping).  For any filter, any tracker and any frames of a
    rotation in the positive sense that the filter follows (at each
    observation the angle of the filter is within half a revolution of the
    total angle of the observation): an observation whose wrapped angle
    fell below the one before adds exactly 1 to the round counter, any
    other frame leaves the counter; each total angle is the wrapped angle
    plus the round counter times the full revolution; and the total angles
    of the observations increase strictly. *)
Theorem calculateTotalAngle_unwrap (frames : list (Q * option Q)) :
  forall (a : Q) (tracker : RuneTracker.Tracker KF22f),
  0 <= a -> a < RuneTracker.full_revolution ->
  tracked angle_of predict correct a frames tracker ->
  unwrapped a (RuneTracker.round tracker) frames (observe frames tracker).
Proof.
  induction frames as [|[t [b|]] frames IH]; intros a tracker Ha0 Ha1;
    cbn [tracked unwrapped RuneTracker.observe]; [auto| |].
  - intros (Hb0 & Hb1 & Hne & Hlo & Hhi & Hrest).
    destruct (update_observed a b t tracker Ha0 Ha1 Hb0 Hb1 Hne Hlo Hhi)
      as (Hround & Hangle & Hinc).
    split; [exact Hround|]. split; [exact Hangle|]. split; [exact Hinc|].
    apply IH; assumption.
  - intros Hrest. split; [reflexivity|].
    apply (IH a (update t None tracker) Ha0 Ha1 Hrest).
Qed.
End RuneFacts.

(** The angles 350, 5, 15 of the specification, a missed frame and 40: one
    round is added at the wrap; the totals are 365, 375 and 400, and the
    missed frame gives the predicted 385. *)
Example observe_sample :
  List.map (fun tracker => (RuneTracker.round tracker, RuneTracker.angle tracker))
    (sample_observe sample_frames sample_rune)
  = [(1%Z, 365); (1%Z, 375); (1%Z, 385); (1%Z, 400)].
Proof. vm_compute. reflexivity. Qed.

Lemma calculateTotalAngle_unwrap_witness :
  unwrapped 350 0 sample_frames (sample_observe sample_frames sample_rune).
Proof.
  apply (calculateTotalAngle_unwrap sample_angle_of sample_predict sample_correct
           sample_frames 350 sample_rune).
  - discriminate.
  - reflexivity.
  - vm_compute. repeat split; discriminate.
Defined.

(** C5, as stated, fails: the wrapped angles 10, 20, 210, 350, 5 increase
    up to the boundary and go past it, but the step from 20 to 210 is more
    than half a revolution, the round counter goes down by one there, and
    the total angle falls from 20 to -150. *)
Lemma calculateTotalAngle_unwrap_counterexample :
  List.map (fun tracker => (RuneTracker.round tracker, RuneTracker.angle tracker))
    (sample_observe wide_frames slow_rune)
  = [(0%Z, 20); ((-1)%Z, -150); ((-1)%Z, -10); (0%Z, 5)] /\
  -150 < 20 /\
  ~ unwrapped 10 0 wide_frames (sample_observe wide_frames slow_rune).
Proof.
  split; [vm_compute; reflexivity|]. split; [reflexivity|].
  intros (_ & _ & _ & Hround & _). vm_compute in Hround. discriminate.
Qed.

(** ** clone *)

Section CloneFacts.
Import DefaultCombo.

(** The loop of [clone] hands out the next addresses in order, copies the
    features to them and leaves every older object as it is. *)
Lemma clone_features_ok (ps : list nat) : forall h : Heap,
  Forall (fun p => is_Some (features h !! p) /\ (p < next h)%nat) ps ->
  exists h' : Heap,
    clone_features ps h = Some (seq (next h) (length ps), h') /\
    combos h' = combos h /\
    next h' = (next h + length ps)%nat /\
    (forall x : nat, (x < next h)%nat -> features h' !! x = features h !! x) /\
    (forall (i p : nat), ps !! i = Some p ->
       features h' !! (next h + i)%nat = features h !! p).
Proof.
  induction ps as [|p ps IH]; intros h Hps.
  - exists h. cbn. repeat split; auto; try lia.
    intros i p H. by rewrite lookup_nil in H.
  - apply Forall_cons in Hps. destruct Hps as [[[f Hf] Hp] Hps].
    cbn [clone_features]. unfold feature_clone. rewrite Hf.
    unfold make_shared_feature.
    set (h1 := {| features := <[next h := f]> (features h);
                  combos := combos h; next := S (next h) |}).
    destruct (IH h1) as (h2 & Hc & Hcombos & Hnext & Hold & Hnew).
    { eapply Forall_impl; [exact Hps|]. intros q [Hq Hlt]. cbn. split; [|lia].
      rewrite lookup_insert_ne; [exact Hq|lia]. }
    exists h2. rewrite Hc. cbn [length seq next h1].
    split; [reflexivity|]. split; [exact Hcombos|].
    split; [rewrite Hnext; cbn; lia|]. split.
    + intros x Hx. rewrite Hold; [|cbn; lia].
      cbn. rewrite lookup_insert_ne; [reflexivity|lia].
    + intros i q Hi. destruct i as [|i]; cbn in Hi.
      * injection Hi as ->. rewrite Nat.add_0_r, Hold; [|cbn; lia].
        cbn. by rewrite lookup_insert_eq.
      * replace (next h + S i)%nat with (next h1 + i)%nat by (cbn; lia).
        rewrite (Hnew i q Hi). cbn.
        rewrite List.Forall_forall in Hps.
        assert (Hq : In q ps).
        { apply list_elem_of_In. eapply list_elem_of_lookup_2, Hi. }
        destruct (Hps q Hq) as [_ Hlt].
        rewrite lookup_insert_ne; [reflexivity|lia].
Qed.

(** C6 (clone).  In a heap whose objects all lie below [next], cloning the
    combo [c] at [this], whose features exist, with the time stamp [tick]
    returns a new combo object: its time stamp is [tick], its other own
    fields are those of [c], its [i]-th feature is an object that did not
    exist before and has the fields of the [i]-th feature of [c]; [c] and
    every object that existed are as before. *)
Theorem clone_deep_copy (h : Heap) (this : nat) (tick : Q) (c : Combo) :
  heap_wf h ->
  combos h !! this = Some c ->
  Forall (fun p => is_Some (features h !! p)) (c_features c) ->
  exists (retval : nat) (h' : Heap) (c' : Combo),
    clone this tick h = Some (retval, h') /\
    combos h' !! retval = Some c' /\
    combos h !! retval = None /\
    c_tick c' = tick /\
    (c_height c' = c_height c /\ c_width c' = c_width c /\
     c_center c' = c_center c /\ c_angle c' = c_angle c /\
     c_corners c' = c_corners c /\ c_type c' = c_type c) /\
    length (c_features c') = length (c_features c) /\
    (forall (i p : nat), c_features c !! i = Some p ->
       exists q : nat, c_features c' !! i = Some q /\
         features h' !! q = features h !! p /\
         features h !! q = None /\
         ~ In q (c_features c)) /\
    combos h' !! this = Some c /\
    (forall p : nat, p <> retval -> combos h' !! p = combos h !! p) /\
    (forall p : nat, is_Some (features h !! p) ->
       features h' !! p = features h !! p).
Proof.
  intros [Hwf Hwc] Hthis Hfs.
  assert (Hfresh : forall q : nat, (next h <= q)%nat -> features h !! q = None).
  { intros q Hq. destruct (features h !! q) eqn:E; [|reflexivity].
    assert (q < next h)%nat by (apply Hwf; eauto). lia. }
  unfold clone. rewrite Hthis. unfold make_shared_combo.
  set (h0 := {| features := features h;
                combos := <[next h := c]> (combos h); next := S (next h) |}).
  destruct (clone_features_ok (c_features c) h0)
    as (h1 & Hc & Hcombos & Hnext & Hold & Hnew).
  { eapply Forall_impl; [exact Hfs|]. intros p Hp. cbn. split; [exact Hp|].
    apply Hwf in Hp. lia. }
  rewrite Hc. eexists _, _, _. split; [reflexivity|].
  cbn [combos features c_tick c_height c_width c_center c_angle c_corners
       c_type c_features].
  assert (Hne : this <> next h).
  { assert (this < next h)%nat by (apply Hwc; eauto). lia. }
  split; [by rewrite lookup_insert_eq|].
  cbn [c_tick c_height c_width c_center c_angle c_corners c_type c_features].
  split.
  { destruct (combos h !! next h) eqn:E; [|reflexivity].
    assert (next h < next h)%nat by (apply Hwc; eauto). lia. }
  split; [reflexivity|]. split; [auto 10|].
  split; [by rewrite length_seq|].
  split.
  { intros i p Hi. exists (next h0 + i)%nat.
    assert (Hlt : (i < length (c_features c))%nat) by (eapply lookup_lt_Some, Hi).
    split; [by apply lookup_seq_lt|].
    split; [exact (Hnew i p Hi)|].
    assert (Hq : features h !! (next h0 + i)%nat = None)
      by (apply Hfresh; cbn; lia).
    split; [exact Hq|].
    intros Hin. rewrite List.Forall_forall in Hfs. apply Hfs in Hin.
    rewrite Hq in Hin. by destruct Hin. }
  split.
  { rewrite lookup_insert_ne; [|congruence].
    rewrite Hcombos. cbn. rewrite lookup_insert_ne; [exact Hthis|congruence]. }
  split.
  { intros p Hp. rewrite lookup_insert_ne; [|congruence].
    rewrite Hcombos. cbn. rewrite lookup_insert_ne; [reflexivity|congruence]. }
  intros p Hp. apply Hwf in Hp. apply (Hold p). cbn. lia.
Qed.
End CloneFacts.

Lemma sample_heap_wf : DefaultCombo.heap_wf sample_heap.
Proof.
  split; intros p [x Hx]; cbn in Hx |- *.
  - destruct (decide (p = 0%nat)) as [->|H0]; [lia|].
    rewrite lookup_insert_ne in Hx by congruence.
    destruct (decide (p = 1%nat)) as [->|H1]; [lia|].
    rewrite lookup_insert_ne in Hx by congruence.
    by rewrite lookup_empty in Hx.
  - destruct (decide (p = 2%nat)) as [->|H2]; [lia|].
    rewrite lookup_insert_ne in Hx by congruence.
    by rewrite lookup_empty in Hx.
Qed.

(** The clone of the sample combo is the object at address 3, its features
    are the objects at 4 and 5, copies of those at 0 and 1. *)
Example clone_sample :
  match DefaultCombo.clone 2 2000 sample_heap with
  | Some (retval, h') =>
      retval = 3%nat /\
      DefaultCombo.c_features <$> DefaultCombo.combos h' !! 3%nat = Some [4; 5]%nat /\
      DefaultCombo.c_tick <$> DefaultCombo.combos h' !! 3%nat = Some 2000 /\
      DefaultCombo.features h' !! 4%nat = Some sample_feature0 /\
      DefaultCombo.features h' !! 5%nat = Some sample_feature1 /\
      DefaultCombo.combos h' !! 2%nat = Some sample_combo
  | None => False
  end.
Proof. vm_compute. repeat split; reflexivity. Qed.

Lemma clone_deep_copy_witness :
  exists (retval : nat) (h' : DefaultCombo.Heap),
    DefaultCombo.clone 2 2000 sample_heap = Some (retval, h').
Proof.
  assert (Hthis : DefaultCombo.combos sample_heap !! 2%nat = Some sample_combo)
    by reflexivity.
  assert (Hfs : Forall (fun p => is_Some (DefaultCombo.features sample_heap !! p))
                  (DefaultCombo.c_features sample_combo)).
  { repeat constructor; eexists; reflexivity. }
  destruct (clone_deep_copy sample_heap 2 2000 sample_combo
              sample_heap_wf Hthis Hfs) as (retval & h' & c' & Hclone & _).
  exists retval, h'. exact Hclone.
Defined.

(** ** The tag constructor *)

Section TagFacts.
Variable getDistance : Point2f -> Point2f -> Q.

(** C9 (corner count).  A corner list whose size is not 4 makes the
    constructor raise [RMVL_StsBadArg] with a message that names the
    argument and gives the size found, and no tag is built; a list of 4
    corners builds a tag with these corners and raises nothing. *)
Theorem make_corner_count (corners : list Point2f) (type : nat) :
  (length corners <> 4%nat ->
     Tag.make getDistance corners type
       = inl (Tag.RMVL_StsBadArg (Tag.bad_corners (length corners))) /\
     forall tag, Tag.make getDistance corners type <> inr tag) /\
  (length corners = 4%nat ->
     exists tag, Tag.make getDistance corners type = inr tag /\
       Tag.corners_ tag = corners /\ Tag.type_ tag = type).
Proof.
  unfold Tag.make. split; intros Hlen.
  - apply Nat.eqb_neq in Hlen. rewrite Hlen. cbn [negb].
    split; [reflexivity|]. intros tag. discriminate.
  - apply Nat.eqb_eq in Hlen. rewrite Hlen. cbn [negb].
    eexists. split; [reflexivity|]. split; reflexivity.
Qed.

(** C10 (width and height).  The width is the longer of the two edge
    lengths rounded to [float].  When the edge from corner 0 to corner 1 is
    the longer one and its length is not a [float], the test
    [_width == length1] fails and the height is this same length rounded:
    the height equals the width, whatever the length of the shorter edge. *)
Theorem make_width_height_float (corners : list Point2f) (type : nat) (tag : Tag.Tag) :
  Tag.make getDistance corners type = inr tag ->
  let length1 := getDistance (nth 0 corners Tag.origin) (nth 1 corners Tag.origin) in
  let length2 := getDistance (nth 1 corners Tag.origin) (nth 2 corners Tag.origin) in
  length2 < length1 ->
  ~ to_float length1 == length1 ->
  Tag.width_ tag = to_float length1 /\
  Tag.height_ tag = to_float length1 /\
  Tag.height_ tag = Tag.width_ tag.
Proof.
  intros H length1 length2 Hlt Hne. unfold Tag.make in H.
  destruct (length corners =? 4)%nat eqn:Hlen; cbn [negb] in H; [|discriminate].
  injection H as <-. cbn [Tag.width_ Tag.height_]. fold length1 length2.
  assert (Hgt : Qgtb length1 length2 = true) by (apply Qgtb_true; exact Hlt).
  rewrite Hgt.
  assert (E : Qeq_bool (to_float length1) length1 = false).
  { destruct (Qeq_bool (to_float length1) length1) eqn:E; [|reflexivity].
    apply Qeq_bool_iff in E. contradiction. }
  rewrite E. repeat split.
Qed.
End TagFacts.

(** The messages for three and for twelve corners. *)
Example bad_corners_sample :
  Tag.bad_corners 3
  = ("the size of the argument " ++ Tag.quote ++ "corners" ++ Tag.quote
     ++ " should be 4, but now it is 3.")%string /\
  Tag.format_size 12 = "12"%string.
Proof. split; reflexivity. Qed.

Lemma make_corner_count_witness :
  Tag.make axis_distance (List.tail sample_corners) 0
    = inl (Tag.RMVL_StsBadArg (Tag.bad_corners 3)) /\
  exists tag, Tag.make axis_distance sample_corners 0 = inr tag.
Proof.
  destruct (make_corner_count axis_distance (List.tail sample_corners) 0)
    as [Hbad _].
  destruct (make_corner_count axis_distance sample_corners 0) as [_ Hgood].
  split.
  - apply Hbad. simpl. lia.
  - destruct Hgood as (tag & Htag & _); [reflexivity|]. exists tag. exact Htag.
Defined.

(** The sample tag: the edges measure 20 and 30, the width is 30 and the
    height 20. *)
Example make_sample :
  match Tag.make axis_distance sample_corners 0 with
  | inr tag => Tag.width_ tag == 30 /\ Tag.height_ tag == 20 /\
               Tag.center_ tag = mkPoint (100 # 4) (80 # 4)
  | inl _ => False
  end.
Proof. vm_compute. repeat split. Qed.

(** The tag with corners (0,0), (3,1), (3,2), (0,1): the edges measure the
    square root of 10 and 1; the width and the height are both the [float]
    nearest to the square root of 10, 3.1622777. *)
Lemma make_width_height_float_witness :
  exists tag, Tag.make sqrt_distance skew_corners 0 = inr tag /\
    sqrt_distance (mkPoint 3 1) (mkPoint 3 2) == 1 /\
    Tag.width_ tag == 6631777 # 2097152 /\
    Tag.height_ tag == 6631777 # 2097152.
Proof.
  destruct (Tag.make sqrt_distance skew_corners 0) as [e|tag] eqn:E;
    [vm_compute in E; discriminate|].
  exists tag. split; [reflexivity|].
  assert (Hlt : sqrt_distance (mkPoint 3 1) (mkPoint 3 2)
                < sqrt_distance (mkPoint 0 0) (mkPoint 3 1)) by (vm_compute; reflexivity).
  assert (Hne : ~ to_float (sqrt_distance (mkPoint 0 0) (mkPoint 3 1))
                  == sqrt_distance (mkPoint 0 0) (mkPoint 3 1)).
  { intros Heq. vm_compute in Heq. discriminate. }
  destruct (make_width_height_float sqrt_distance skew_corners 0 tag E Hlt Hne)
    as (Hw & Hh & _).
  rewrite Hw, Hh. repeat split; vm_compute; reflexivity.
Defined.

(** * Further properties of the detector *)

Section MatchFacts.
Variable make_combo : LightBlob -> LightBlob -> option Armor.
Variable isContainBlob : LightBlob -> Armor -> bool.

Local Abbreviation match_row := (GyroDetector.match_row make_combo isContainBlob).
Local Abbreviation match_all := (GyroDetector.match_all make_combo isContainBlob).
Local Abbreviation contain := (GyroDetector.contain isContainBlob).
Local Abbreviation findArmors := (GyroDetector.findArmors make_combo isContainBlob).

(** A pair that passes both tests is in its row. *)
Lemma match_row_complete (bi bj : LightBlob) (a : Armor) (mid post : list LightBlob) :
  forall between,
    make_combo bi bj = Some a -> contain (between ++ mid) a = false ->
    In a (match_row bi between (mid ++ bj :: post)).
Proof.
  induction mid as [|m mid IH]; intros between Hm Hc.
  - rewrite app_nil_r in Hc. cbn. rewrite Hm, Hc. by left.
  - assert (Hrec : In a (match_row bi (between ++ [m]) (mid ++ bj :: post))).
    { apply IH; [exact Hm|]. by rewrite <- app_assoc. }
    cbn. destruct (make_combo bi m) as [armor|]; [|exact Hrec].
    destruct (contain between armor); [exact Hrec|by right].
Qed.

Lemma match_all_complete (bi bj : LightBlob) (a : Armor)
    (pre mid post : list LightBlob) :
  make_combo bi bj = Some a -> contain mid a = false ->
  In a (match_all (pre ++ bi :: mid ++ bj :: post)).
Proof.
  intros Hm Hc. induction pre as [|p pre IH]; cbn; apply in_or_app.
  - left. by apply (match_row_complete bi bj a mid post []).
  - right. exact IH.
Qed.

(** X1.  The armors matched on a list of blobs are exactly those that
    [make_combo] builds from a blob and a later blob of the list such that
    no blob between the two has its center inside the armor. *)
Theorem match_all_iff (s : list LightBlob) (a : Armor) :
  In a (match_all s) <->
  exists pre bi mid bj post,
    s = pre ++ bi :: mid ++ bj :: post /\ make_combo bi bj = Some a /\
    Forall (fun blob => isContainBlob blob a = false) mid.
Proof.
  assert (Hcontain : forall mid : list LightBlob,
    contain mid a = false <-> Forall (fun blob => isContainBlob blob a = false) mid).
  { intros mid. unfold GyroDetector.contain. induction mid as [|m mid IH]; cbn.
    - split; [constructor|reflexivity].
    - rewrite orb_false_iff, IH, Forall_cons. reflexivity. }
  split.
  - intros Hin. destruct (match_all_In _ _ _ _ Hin)
      as (pre & bi & mid & bj & post & Hs & Hm & Hc).
    exists pre, bi, mid, bj, post. rewrite <- Hcontain. auto.
  - intros (pre & bi & mid & bj & post & -> & Hm & Hc).
    apply match_all_complete; [exact Hm|]. by apply Hcontain.
Qed.

(** X2.  Two neighbours of the sorted list that [make_combo] accepts are
    always matched: the prune cannot cut a pair with nothing in between. *)
Theorem match_all_neighbours (pre post : list LightBlob) (bi bj : LightBlob) (a : Armor) :
  make_combo bi bj = Some a ->
  In a (match_all (pre ++ bi :: bj :: post)).
Proof.
  intros Hm. by apply (match_all_complete bi bj a pre [] post).
Qed.

Lemma match_row_length (bi : LightBlob) (rest : list LightBlob) : forall between,
  (length (match_row bi between rest) <= length rest)%nat.
Proof.
  induction rest as [|bj rest IH]; intros between; cbn; [lia|].
  specialize (IH (between ++ [bj])).
  destruct (make_combo bi bj) as [armor|]; [|lia].
  destruct (contain between armor); cbn; lia.
Qed.

Lemma match_all_length (s : list LightBlob) :
  (2 * length (match_all s) <= length s * (length s - 1))%nat.
Proof.
  induction s as [|bi rest IH]; cbn [GyroDetector.match_all length]; [lia|].
  rewrite length_app. pose proof (match_row_length bi rest []) as Hrow.
  replace (S (length rest) - 1)%nat with (length rest) by lia.
  destruct (length rest) as [|n] eqn:E; cbn in IH |- *; nia.
Qed.

(** X3.  [findArmors] returns at most [n (n - 1) / 2] armors for [n] blobs,
    none when there are fewer than two, and its first result is the input
    in ascending order of the horizontal position of the centers. *)
Theorem findArmors_size (light_blobs : list LightBlob) :
  (2 * length (snd (findArmors light_blobs))
     <= length light_blobs * (length light_blobs - 1))%nat /\
  ((length light_blobs < 2)%nat -> snd (findArmors light_blobs) = []) /\
  fst (findArmors light_blobs) ≡ₚ light_blobs /\
  sorted_by_x (fst (findArmors light_blobs)).
Proof.
  unfold GyroDetector.findArmors.
  pose proof (std_sort_length GyroDetector.blob_less light_blobs) as Hlen.
  destruct (length (std_sort GyroDetector.blob_less light_blobs) <? 2)%nat eqn:E;
    cbn [fst snd].
  - split; [exact (Nat.le_0_l _)|]. split; [reflexivity|].
    split; [apply std_sort_perm|apply std_sort_sorted].
  - split; [rewrite <- Hlen; apply match_all_length|].
    split; [apply Nat.ltb_ge in E; lia|].
    split; [apply std_sort_perm|apply std_sort_sorted].
Qed.

(** X4.  When [make_combo] stores its arguments, every armor that
    [findArmors] returns is made of two blobs of the input, and its left
    blob is not to the right of its right blob. *)
Theorem findArmors_left_right (light_blobs : list LightBlob) (a : Armor) :
  keeps_features make_combo ->
  In a (snd (findArmors light_blobs)) ->
  In (at0 a) light_blobs /\ In (at1 a) light_blobs /\
  px (bcenter (at0 a)) <= px (bcenter (at1 a)).
Proof.
  intros Hk Hin. unfold GyroDetector.findArmors in Hin.
  destruct (length (std_sort GyroDetector.blob_less light_blobs) <? 2)%nat;
    cbn [snd] in Hin; [destruct Hin|].
  destruct (match_all_In _ _ _ _ Hin) as (pre & bi & mid & bj & post & Hs & Hm & _).
  destruct (Hk _ _ _ Hm) as [-> ->].
  pose proof (std_sort_sorted light_blobs) as Hsorted. rewrite Hs in Hsorted.
  destruct (sorted_by_x_split _ _ _ Hsorted) as [_ Hafter].
  assert (Hperm : forall b, In b (pre ++ bi :: mid ++ bj :: post) -> In b light_blobs).
  { intros b Hb. rewrite <- Hs in Hb.
    eapply Permutation_in; [apply std_sort_perm|exact Hb]. }
  split; [|split].
  - apply Hperm, in_or_app. right. by left.
  - apply Hperm, in_or_app. right. right. apply in_or_app. right. by left.
  - apply Hafter, in_or_app. right. by left.
Qed.
End MatchFacts.

Lemma findArmors_left_right_witness :
  px (bcenter (at0 armor12)) <= px (bcenter (at1 armor12)).
Proof.
  apply (findArmors_left_right sample_make_combo sample_isContainBlob
           [blob140; blob100; blob120] armor12 sample_keeps_features).
  vm_compute. tauto.
Defined.

Lemma match_all_iff_witness :
  In armor12
    (GyroDetector.match_all sample_make_combo sample_isContainBlob
       [blob100; blob120; blob140]).
Proof.
  apply (match_all_iff sample_make_combo sample_isContainBlob
           [blob100; blob120; blob140] armor12).
  exists [], blob100, [], blob120, [blob140].
  split; [reflexivity|]. split; [reflexivity|constructor].
Defined.

Lemma match_all_neighbours_witness :
  In armor23
    (GyroDetector.match_all sample_make_combo sample_isContainBlob
       ([blob100] ++ blob120 :: blob140 :: [blob160])).
Proof.
  apply (match_all_neighbours sample_make_combo sample_isContainBlob
           [blob100] [blob160] blob120 blob140 armor23).
  reflexivity.
Defined.

Lemma findArmors_size_witness :
  snd (GyroDetector.findArmors sample_make_combo sample_isContainBlob [blob100]) = [].
Proof.
  apply (findArmors_size sample_make_combo sample_isContainBlob [blob100]).
  simpl. lia.
Defined.

(** ** What conflict resolution leaves *)

Lemma conflict_loser (a b : Armor) :
  conflict a b = true ->
  exists x, GyroDetector.loser a b = Some x /\ (x = a \/ x = b).
Proof.
  unfold conflict, GyroDetector.loser. intros H.
  destruct (GyroDetector.share_same a b).
  - destruct (Qgtb (awidth a) (awidth b)); eauto.
  - cbn in H. rewrite H. destruct (Qgtb (aerror a) (aerror b)); eauto.
Qed.

Lemma loser_conflict (a b x : Armor) :
  GyroDetector.loser a b = Some x -> conflict a b = true.
Proof.
  unfold conflict, GyroDetector.loser.
  destruct (GyroDetector.share_same a b); [reflexivity|].
  destruct (GyroDetector.share_cross a b); [reflexivity|discriminate].
Qed.

(** Two positions of a filtered list come from two positions of the list, in
    the same order. *)
Lemma filter_lookup_pair {A} (f : A -> bool) (l : list A) :
  forall (i j : nat) (a b : A),
    (i < j)%nat -> List.filter f l !! i = Some a -> List.filter f l !! j = Some b ->
    exists i' j' : nat, (i' < j')%nat /\ l !! i' = Some a /\ l !! j' = Some b.
Proof.
  induction l as [|x l IH]; intros i j a b Hlt Hi Hj; cbn in Hi, Hj.
  - by rewrite lookup_nil in Hi.
  - destruct (f x).
    + destruct j as [|j]; [lia|]. cbn in Hj. destruct i as [|i]; cbn in Hi.
      * injection Hi as ->.
        assert (Hb : In b l).
        { apply list_elem_of_lookup_2, list_elem_of_In in Hj.
          apply List.filter_In in Hj. tauto. }
        apply list_elem_of_In, list_elem_of_lookup in Hb. destruct Hb as [j' Hj'].
        exists 0%nat, (S j'). split; [lia|]. auto.
      * destruct (IH i j a b) as (i' & j' & H & H1 & H2); [lia|auto|auto|].
        exists (S i'), (S j'). split; [lia|]. auto.
    + destruct (IH i j a b Hlt Hi Hj) as (i' & j' & H & H1 & H2).
      exists (S i'), (S j'). split; [lia|]. auto.
Qed.

Lemma eraseErrorArmors_lookup_pair (armors : list Armor) (i j : nat) (a b : Armor) :
  (i < j)%nat ->
  GyroDetector.eraseErrorArmors armors !! i = Some a ->
  GyroDetector.eraseErrorArmors armors !! j = Some b ->
  exists i' j' : nat, (i' < j')%nat /\ armors !! i' = Some a /\ armors !! j' = Some b.
Proof.
  unfold GyroDetector.eraseErrorArmors.
  destruct (length armors <? 2)%nat; [eauto|apply filter_lookup_pair].
Qed.

(** Two armors of the result, in the order of the result, do not conflict. *)
Lemma eraseErrorArmors_ordered_free (armors : list Armor) (i j : nat) (a b : Armor) :
  (i < j)%nat ->
  GyroDetector.eraseErrorArmors armors !! i = Some a ->
  GyroDetector.eraseErrorArmors armors !! j = Some b ->
  conflict a b = false.
Proof.
  intros Hlt Hi Hj.
  destruct (conflict a b) eqn:Hc; [exfalso|reflexivity].
  destruct (eraseErrorArmors_lookup_pair armors i j a b Hlt Hi Hj)
    as (i' & j' & Hlt' & Hi' & Hj').
  destruct (conflict_loser a b Hc) as (x & Hl & Hx).
  assert (Hm : marked armors (aid x)) by (exists i', j', a, b, x; auto).
  assert (Hout : In x (GyroDetector.eraseErrorArmors armors)).
  { apply list_elem_of_In. destruct Hx as [->| ->];
      eapply list_elem_of_lookup_2; eauto. }
  apply eraseErrorArmors_In in Hout. tauto.
Qed.

Lemma filter_all {A} (f : A -> bool) (l : list A) :
  (forall x, In x l -> f x = true) -> List.filter f l = l.
Proof.
  induction l as [|x l IH]; intros H; cbn; [reflexivity|].
  rewrite (H x) by (by left). f_equal. apply IH. intros y Hy. apply H. by right.
Qed.

Lemma eraseErrorArmors_fixed (armors : list Armor) :
  (forall (i j : nat) (a b : Armor), (i < j)%nat ->
     armors !! i = Some a -> armors !! j = Some b -> conflict a b = false) ->
  GyroDetector.eraseErrorArmors armors = armors.
Proof.
  intros Hfree. unfold GyroDetector.eraseErrorArmors.
  destruct (length armors <? 2)%nat; [reflexivity|].
  apply filter_all. intros x Hx. apply negb_true_iff, removable_false.
  intros (i & j & a & b & y & Hlt & Hi & Hj & Hl & _).
  apply loser_conflict in Hl. rewrite (Hfree i j a b Hlt Hi Hj) in Hl. discriminate.
Qed.

(** X5.  No two armors that [eraseErrorArmors] returns share a blob, in the
    same role or in opposite roles. *)
Theorem eraseErrorArmors_conflict_free (armors : list Armor) (i j : nat) (a b : Armor) :
  i <> j ->
  GyroDetector.eraseErrorArmors armors !! i = Some a ->
  GyroDetector.eraseErrorArmors armors !! j = Some b ->
  GyroDetector.share_same a b = false /\ GyroDetector.share_cross a b = false.
Proof.
  intros Hne Hi Hj. apply orb_false_iff.
  destruct (Nat.lt_ge_cases i j) as [Hlt|Hge].
  - exact (eraseErrorArmors_ordered_free armors i j a b Hlt Hi Hj).
  - assert (Hc : conflict b a = false)
      by (apply (eraseErrorArmors_ordered_free armors j i); auto; lia).
    unfold conflict in Hc |- *.
    by rewrite share_same_sym, share_cross_sym.
Qed.

(** X6.  A list in which no two armors share a blob is returned as it is;
    so is every list of fewer than two armors. *)
Theorem eraseErrorArmors_no_conflict (armors : list Armor) :
  ((forall (i j : nat) (a b : Armor), (i < j)%nat ->
      armors !! i = Some a -> armors !! j = Some b -> conflict a b = false) ->
   GyroDetector.eraseErrorArmors armors = armors) /\
  ((length armors < 2)%nat -> GyroDetector.eraseErrorArmors armors = armors).
Proof.
  split; [apply eraseErrorArmors_fixed|].
  intros Hlen. apply eraseErrorArmors_fixed. intros i j a b Hlt _ Hj.
  apply lookup_lt_Some in Hj. lia.
Qed.

(** X7.  [eraseErrorArmors] is idempotent: a second pass removes nothing. *)
Theorem eraseErrorArmors_idempotent (armors : list Armor) :
  GyroDetector.eraseErrorArmors (GyroDetector.eraseErrorArmors armors)
  = GyroDetector.eraseErrorArmors armors.
Proof.
  apply eraseErrorArmors_fixed. apply eraseErrorArmors_ordered_free.
Qed.

Lemma eraseErrorArmors_conflict_free_witness :
  GyroDetector.share_same armor12 armor34 = false /\
  GyroDetector.share_cross armor12 armor34 = false.
Proof.
  apply (eraseErrorArmors_conflict_free [armor12; armor34] 0 1 armor12 armor34).
  - discriminate.
  - vm_compute. reflexivity.
  - vm_compute. reflexivity.
Defined.

Lemma eraseErrorArmors_no_conflict_witness :
  GyroDetector.eraseErrorArmors [armor12] = [armor12].
Proof.
  apply (eraseErrorArmors_no_conflict [armor12]). simpl. lia.
Defined.

(** ** The brightness filter *)

Lemma Qtrunc_range (q : Q) (n : Z) :
  0 <= q -> q <= inject_Z n -> (0 <= Qtrunc q <= n)%Z.
Proof.
  destruct q as [a b]. unfold Qle, Qtrunc, inject_Z. cbn. intros H0 Hn.
  rewrite Z.quot_div_nonneg by lia. split.
  - apply Z.div_pos; lia.
  - apply Z.div_le_upper_bound; lia.
Qed.

Lemma offsets_range (i : Z) :
  In i GyroDetector.offsets -> -5 <= inject_Z i /\ inject_Z i <= 5.
Proof.
  unfold GyroDetector.offsets.
  intros H. repeat (destruct H as [<-|H]; [split; vm_compute; discriminate|]).
  destruct H.
Qed.

(** The sampled abscissa stays within one height of the center. *)
Lemma sample_span (cx h i n : Q) :
  0 <= h -> -5 <= i -> i <= 5 -> 0 <= cx - h -> cx + h <= n ->
  0 <= cx - h * i / 5 /\ cx - h * i / 5 <= n.
Proof.
  intros Hh Hi1 Hi2 Hl Hr.
  assert (H4 : 0 <= h * (i + 5)) by (apply Qmult_le_0_compat; lra).
  assert (H5 : 0 <= h * (5 - i)) by (apply Qmult_le_0_compat; lra).
  assert (E : h * i / 5 == (1 # 5) * (h * i)) by field.
  rewrite E. set (t := h * i) in *.
  assert (H6 : h * (i + 5) == t + 5 * h) by (unfold t; ring).
  assert (H7 : h * (5 - i) == 5 * h - t) by (unfold t; ring).
  rewrite H6 in H4. rewrite H7 in H5.
  split; lra.
Qed.

(** X8.  A blob with a non-negative height whose center row is a row of the
    image and whose center is at least its height away from the left
    border and from the last column: each of the ten samples is a pixel of
    the image. *)
Theorem samples_inside (src : GyroDetector.Mat) (blob : LightBlob) (i : Z) :
  In i GyroDetector.offsets ->
  0 <= bheight blob ->
  0 <= px (bcenter blob) - bheight blob ->
  px (bcenter blob) + bheight blob <= inject_Z (GyroDetector.cols src - 1) ->
  0 <= py (bcenter blob) ->
  py (bcenter blob) <= inject_Z (GyroDetector.rows src - 1) ->
  (0 <= GyroDetector.sample_x src blob i <= GyroDetector.cols src - 1)%Z /\
  (0 <= GyroDetector.sample_y src blob <= GyroDetector.rows src - 1)%Z.
Proof.
  intros Hi Hh Hl Hr Ht Hb. apply offsets_range in Hi. destruct Hi as [Hi1 Hi2].
  assert (Hx : (0 <= Qtrunc (px (bcenter blob) - bheight blob * inject_Z i / 5)
                <= GyroDetector.cols src - 1)%Z).
  { destruct (sample_span (px (bcenter blob)) (bheight blob) (inject_Z i)
                (inject_Z (GyroDetector.cols src - 1))); auto.
    by apply Qtrunc_range. }
  assert (Hy : (0 <= Qtrunc (py (bcenter blob)) <= GyroDetector.rows src - 1)%Z)
    by (by apply Qtrunc_range).
  unfold GyroDetector.sample_x, GyroDetector.sample_y. split.
  - destruct (Z.gtb_spec (Qtrunc (px (bcenter blob) - bheight blob * inject_Z i / 5))
                (GyroDetector.cols src)); [lia|].
    destruct (Z.ltb_spec (Qtrunc (px (bcenter blob) - bheight blob * inject_Z i / 5)) 0);
      lia.
  - destruct (Z.ltb_spec (Qtrunc (py (bcenter blob))) 0); [lia|].
    destruct (Z.gtb_spec (Qtrunc (py (bcenter blob))) (GyroDetector.rows src)); lia.
Qed.

Lemma samples_inside_witness :
  (0 <= GyroDetector.sample_x dark blob100 (-5) <= GyroDetector.cols dark - 1)%Z /\
  (0 <= GyroDetector.sample_y dark blob100 <= GyroDetector.rows dark - 1)%Z.
Proof.
  apply (samples_inside dark blob100 (-5)).
  - simpl. tauto.
  - vm_compute. discriminate.
  - vm_compute. discriminate.
  - vm_compute. discriminate.
  - vm_compute. discriminate.
  - vm_compute. discriminate.
Defined.

Lemma fold_sum_upper (f : Z -> Z) (hi : Z) (l : list Z) : forall acc : Z,
  (forall i, In i l -> (f i <= hi)%Z) ->
  (fold_left (fun total i => (total + f i)%Z) l acc
   <= acc + hi * Z.of_nat (length l))%Z.
Proof.
  induction l as [|i l IH]; intros acc H; cbn [fold_left length]; [lia|].
  assert (Hi : (f i <= hi)%Z) by (apply H; by left).
  specialize (IH (acc + f i)%Z (fun j Hj => H j (or_intror Hj))). lia.
Qed.

Lemma fold_sum_lower (f : Z -> Z) (lo : Z) (l : list Z) : forall acc : Z,
  (forall i, In i l -> (lo <= f i)%Z) ->
  (acc + lo * Z.of_nat (length l)
   <= fold_left (fun total i => (total + f i)%Z) l acc)%Z.
Proof.
  induction l as [|i l IH]; intros acc H; cbn [fold_left length]; [lia|].
  assert (Hi : (lo <= f i)%Z) by (apply H; by left).
  specialize (IH (acc + f i)%Z (fun j Hj => H j (or_intror Hj))). lia.
Qed.

(** The sum of the ten samples against a bound on each of them. *)
Lemma total_brightness_upper (src : GyroDetector.Mat) (blob : LightBlob) (hi : Z) :
  (forall i, In i GyroDetector.offsets ->
     (GyroDetector.brightness
        (GyroDetector.at_ src (GyroDetector.sample_y src blob)
           (GyroDetector.sample_x src blob i)) <= hi)%Z) ->
  (GyroDetector.total_brightness src blob <= 10 * hi)%Z.
Proof.
  intros H. unfold GyroDetector.total_brightness.
  pose proof (fold_sum_upper
    (fun i => GyroDetector.brightness
                (GyroDetector.at_ src (GyroDetector.sample_y src blob)
                   (GyroDetector.sample_x src blob i)))
    hi GyroDetector.offsets 0%Z H) as Hb.
  cbn [length GyroDetector.offsets] in Hb. lia.
Qed.

Lemma total_brightness_lower (src : GyroDetector.Mat) (blob : LightBlob) (lo : Z) :
  (forall i, In i GyroDetector.offsets ->
     (lo <= GyroDetector.brightness
              (GyroDetector.at_ src (GyroDetector.sample_y src blob)
                 (GyroDetector.sample_x src blob i)))%Z) ->
  (10 * lo <= GyroDetector.total_brightness src blob)%Z.
Proof.
  intros H. unfold GyroDetector.total_brightness.
  pose proof (fold_sum_lower
    (fun i => GyroDetector.brightness
                (GyroDetector.at_ src (GyroDetector.sample_y src blob)
                   (GyroDetector.sample_x src blob i)))
    lo GyroDetector.offsets 0%Z H) as Hb.
  cbn [length GyroDetector.offsets] in Hb. lia.
Qed.



Lemma inject_Z_8bit (c : Z) :
  (0 <= c <= 255)%Z -> 0 <= inject_Z c /\ inject_Z c <= 255.
Proof.
  intros [H0 H1]. unfold Qle, inject_Z. cbn. lia.
Qed.

(** A channel scaled by a non-negative weight. *)
Lemma scaled_channel (k : Q) (c : Z) :
  0 <= k -> (0 <= c <= 255)%Z ->
  0 <= to_double (k * inject_Z c) /\
  to_double (k * inject_Z c) <= to_double (k * 255).
Proof.
  intros Hk Hc. apply inject_Z_8bit in Hc. destruct Hc as [H0 H1].
  assert (Hlo : 0 <= k * inject_Z c) by (apply Qmult_le_0_compat; assumption).
  assert (Hhi : k * inject_Z c <= k * 255).
  { rewrite (Qmult_comm k (inject_Z c)), (Qmult_comm k 255).
    apply Qmult_le_compat_r; assumption. }
  split.
  - apply round_to_nonneg; [lia|exact Hlo].
  - apply round_to_mono; [lia|exact Hlo|exact Hhi].
Qed.

(** The brightness of a pixel with 8-bit channels is an 8-bit value. *)
Lemma brightness_8bit (c0 c1 c2 : Z) :
  (0 <= c0 <= 255)%Z -> (0 <= c1 <= 255)%Z -> (0 <= c2 <= 255)%Z ->
  (0 <= GyroDetector.brightness (c0, c1, c2) <= 255)%Z.
Proof.
  intros H0 H1 H2. unfold GyroDetector.brightness.
  assert (K1 : 0 <= to_double (1 # 10)) by (apply round_to_nonneg; [lia|discriminate]).
  assert (K6 : 0 <= to_double (6 # 10)) by (apply round_to_nonneg; [lia|discriminate]).
  assert (K3 : 0 <= to_double (3 # 10)) by (apply round_to_nonneg; [lia|discriminate]).
  destruct (scaled_channel _ c0 K1 H0) as [B0 B1].
  destruct (scaled_channel _ c1 K6 H1) as [G0 G1].
  destruct (scaled_channel _ c2 K3 H2) as [R0 R1].
  set (blue := to_double (to_double (1 # 10) * inject_Z c0)) in *.
  set (green := to_double (to_double (6 # 10) * inject_Z c1)) in *.
  set (red := to_double (to_double (3 # 10) * inject_Z c2)) in *.
  set (blue' := to_double (to_double (1 # 10) * 255)) in *.
  set (green' := to_double (to_double (6 # 10) * 255)) in *.
  set (red' := to_double (to_double (3 # 10) * 255)) in *.
  assert (S0 : 0 <= to_double (blue + green)) by (apply round_to_nonneg; [lia|lra]).
  assert (S1 : to_double (blue + green) <= to_double (blue' + green'))
    by (apply round_to_mono; [lia|lra|lra]).
  set (s := to_double (blue + green)) in *.
  set (s' := to_double (blue' + green')) in *.
  assert (T0 : 0 <= to_double (s + red)) by (apply round_to_nonneg; [lia|lra]).
  assert (T1 : to_double (s + red) <= to_double (s' + red'))
    by (apply round_to_mono; [lia|lra|lra]).
  assert (E : to_double (s' + red') = 255) by (vm_compute; reflexivity).
  rewrite E in T1. apply Qtrunc_range; [exact T0|exact T1].
Qed.

(** Three equal channels of 111 give 110: the rounded sum is just below
    111.  Three channels of 255 give 255. *)
Example brightness_sample :
  GyroDetector.brightness (111, 111, 111)%Z = 110%Z /\
  GyroDetector.brightness (255, 255, 255)%Z = 255%Z /\
  GyroDetector.brightness (0, 0, 0)%Z = 0%Z /\
  GyroDetector.brightness (110, 110, 110)%Z = 110%Z.
Proof. vm_compute. repeat split. Qed.

(** X10.  On an image whose channels are 8-bit values the sum of the ten
    samples lies between 0 and 2550, wherever the samples are taken. *)
Theorem total_brightness_8bit (src : GyroDetector.Mat) (blob : LightBlob) :
  (forall y x : Z,
     let '(c0, c1, c2) := GyroDetector.at_ src y x in
     (0 <= c0 <= 255)%Z /\ (0 <= c1 <= 255)%Z /\ (0 <= c2 <= 255)%Z) ->
  (0 <= GyroDetector.total_brightness src blob <= 2550)%Z.
Proof.
  intros H8.
  assert (Hb : forall i, In i GyroDetector.offsets ->
    (0 <= GyroDetector.brightness
            (GyroDetector.at_ src (GyroDetector.sample_y src blob)
               (GyroDetector.sample_x src blob i)) <= 255)%Z).
  { intros i _.
    specialize (H8 (GyroDetector.sample_y src blob) (GyroDetector.sample_x src blob i)).
    destruct (GyroDetector.at_ src _ _) as [[c0 c1] c2].
    destruct H8 as (H0 & H1 & H2). by apply brightness_8bit. }
  pose proof (total_brightness_upper src blob 255 (fun i Hi => proj2 (Hb i Hi))).
  pose proof (total_brightness_lower src blob 0 (fun i Hi => proj1 (Hb i Hi))).
  lia.
Qed.

Lemma total_brightness_8bit_witness :
  (0 <= GyroDetector.total_brightness dark blob100 <= 2550)%Z.
Proof.
  apply (total_brightness_8bit dark blob100).
  intros y x. cbn. lia.
Defined.

(** ** eraseFakeArmors and what find appends *)

(** X11.  [eraseFakeArmors] keeps, in order, the armors whose type is not
    [UNKNOWN]; none of the armors it returns is [UNKNOWN], and after every
    armor has been given the type [UNKNOWN] (the build without the inference
    engine) it returns nothing. *)
Theorem eraseFakeArmors_unknown (armors : list Armor) :
  (forall a, In a (GyroDetector.eraseFakeArmors armors) <->
             In a armors /\ atype a <> UNKNOWN) /\
  sublist (GyroDetector.eraseFakeArmors armors) armors /\
  GyroDetector.eraseFakeArmors (List.map (setType UNKNOWN) armors) = [].
Proof.
  split; [|split].
  - intros a. unfold GyroDetector.eraseFakeArmors, GyroDetector.is_unknown.
    rewrite List.filter_In. destruct (atype a); cbn; intuition congruence.
  - apply filter_sublist.
  - unfold GyroDetector.eraseFakeArmors. induction armors as [|a l IH]; cbn; auto.
Qed.

Section FindAppends.
Variable Contour : Type.
Variable findContours : GyroDetector.Mat -> list Contour.
Variable contourArea : Contour -> Q.
Variable MIN_CONTOUR_AREA : Q.
Variable make_feature : Contour -> option LightBlob.
Variable make_combo : LightBlob -> LightBlob -> option Armor.
Variable isContainBlob : LightBlob -> Armor -> bool.

Local Abbreviation find :=
  (GyroDetector.find Contour findContours contourArea MIN_CONTOUR_AREA
     make_feature make_combo isContainBlob).

(** X12.  [find] only appends: the two lists it is given are prefixes of the
    two lists it returns.  The features appended are in ascending order of
    the horizontal position; the combos appended all have the type
    [UNKNOWN] and no two of them share a blob. *)
Theorem find_appends (src : GyroDetector.Mat)
    (features : list LightBlob) (combos : list Armor) :
  exists (new_features : list LightBlob) (new_combos : list Armor),
    find src features combos = (features ++ new_features, combos ++ new_combos) /\
    sorted_by_x new_features /\
    Forall (fun a => atype a = UNKNOWN) new_combos /\
    forall (i j : nat) (a b : Armor), (i < j)%nat ->
      new_combos !! i = Some a -> new_combos !! j = Some b ->
      GyroDetector.share_same a b = false /\ GyroDetector.share_cross a b = false.
Proof.
  unfold GyroDetector.find.
  set (blobs := GyroDetector.eraseBrightBlobs src _).
  destruct (2 <=? length blobs)%nat.
  - destruct (GyroDetector.findArmors make_combo isContainBlob blobs)
      as [sorted armors] eqn:E.
    assert (Hs : sorted = std_sort GyroDetector.blob_less blobs).
    { unfold GyroDetector.findArmors in E.
      destruct (length (std_sort GyroDetector.blob_less blobs) <? 2)%nat;
        by injection E as <- _. }
    eexists _, _. split; [reflexivity|]. split; [|split].
    + rewrite Hs. apply std_sort_sorted.
    + apply List.Forall_forall. intros a Ha.
      apply eraseErrorArmors_In in Ha. destruct Ha as [Ha _].
      apply List.in_map_iff in Ha. destruct Ha as (a0 & <- & _). reflexivity.
    + intros i j a b Hlt Hi Hj. apply orb_false_iff.
      exact (eraseErrorArmors_ordered_free _ i j a b Hlt Hi Hj).
  - exists [], []. rewrite !app_nil_r. split; [reflexivity|].
    split; [constructor|]. split; [constructor|].
    intros i j a b _ Hi. by rewrite lookup_nil in Hi.
Qed.
End FindAppends.

(** * Further properties of combos *)

Section ComboFacts.
Import DefaultCombo.

Lemma clone_features_bound (ps : list nat) : forall (h h' : Heap) (qs : list nat),
  clone_features ps h = Some (qs, h') ->
  (forall x, is_Some (features h !! x) -> (x < next h)%nat) ->
  (forall x, is_Some (features h' !! x) -> (x < next h')%nat).
Proof.
  induction ps as [|p ps IH]; intros h h' qs Hc Hb; cbn in Hc.
  - by injection Hc as _ <-.
  - unfold feature_clone in Hc. destruct (features h !! p) as [f|]; [|discriminate].
    unfold make_shared_feature in Hc.
    destruct (clone_features ps _) as [[qs' h2]|] eqn:E; [|discriminate].
    injection Hc as _ <-. eapply IH; [exact E|].
    cbn. intros x Hx. destruct (decide (next h = x)) as [<-|Hne]; [lia|].
    rewrite lookup_insert_ne in Hx by exact Hne. apply Hb in Hx. lia.
Qed.

(** The heap after [clone], in full. *)
Lemma clone_shape (h : Heap) (this : nat) (tick : Q) (c : Combo) :
  heap_wf h ->
  combos h !! this = Some c ->
  Forall (fun p => is_Some (features h !! p)) (c_features c) ->
  exists h' : Heap,
    clone this tick h = Some (next h, h') /\
    heap_wf h' /\
    next h' = S (next h + length (c_features c)) /\
    combos h'
      = <[next h := retick c (seq (S (next h)) (length (c_features c))) tick]>
          (combos h) /\
    (forall x : nat, (x <= next h)%nat -> features h' !! x = features h !! x) /\
    (forall (i p : nat), c_features c !! i = Some p ->
       features h' !! (S (next h) + i)%nat = features h !! p).
Proof.
  intros [Hwf Hwc] Hthis Hfs.
  unfold clone. rewrite Hthis. unfold make_shared_combo.
  set (h0 := {| features := features h;
                combos := <[next h := c]> (combos h); next := S (next h) |}).
  destruct (clone_features_ok (c_features c) h0)
    as (h1 & Hc & Hcombos & Hnext & Hold & Hnew).
  { eapply Forall_impl; [exact Hfs|]. intros p Hp. cbn. split; [exact Hp|].
    apply Hwf in Hp. lia. }
  rewrite Hc. eexists. split; [reflexivity|].
  assert (Hb1 : forall x, is_Some (features h1 !! x) -> (x < next h1)%nat).
  { eapply clone_features_bound; [exact Hc|]. cbn. intros x Hx.
    apply Hwf in Hx. lia. }
  cbn [features combos next] in *.
  split; [split|].
  - exact Hb1.
  - cbn. intros p Hp. rewrite Hcombos in Hp. cbn in Hp. rewrite Hnext. cbn.
    destruct (decide (next h = p)) as [<-|Hne]; [lia|].
    rewrite !lookup_insert_ne in Hp by exact Hne. apply Hwc in Hp. lia.
  - split; [rewrite Hnext; cbn; lia|]. split.
    { rewrite Hcombos. cbn. by rewrite insert_insert_eq. }
    split.
    + intros x Hx. apply Hold. cbn. lia.
    + intros i p Hi. exact (Hnew i p Hi).
Qed.
End ComboFacts.

Section ComboTheorems.
Import DefaultCombo.

(** The features that [clone] makes exist in the new heap, and so do those
    of the combo that was cloned. *)
Lemma clone_features_exist (h h' : Heap) (c : Combo) :
  heap_wf h ->
  Forall (fun p => is_Some (features h !! p)) (c_features c) ->
  (forall x : nat, (x <= next h)%nat -> features h' !! x = features h !! x) ->
  (forall (i p : nat), c_features c !! i = Some p ->
     features h' !! (S (next h) + i)%nat = features h !! p) ->
  Forall (fun p => is_Some (features h' !! p))
    (seq (S (next h)) (length (c_features c))) /\
  Forall (fun p => is_Some (features h' !! p)) (c_features c).
Proof.
  intros [Hwf _] Hfs Hold Hnew. rewrite List.Forall_forall in Hfs. split.
  - apply List.Forall_forall. intros x Hx. apply in_seq in Hx.
    destruct (lookup_lt_is_Some_2 (c_features c) (x - S (next h))) as [p Hp]; [lia|].
    replace x with (S (next h) + (x - S (next h)))%nat by lia.
    rewrite (Hnew _ p Hp). apply Hfs, list_elem_of_In.
    eapply list_elem_of_lookup_2, Hp.
  - apply List.Forall_forall. intros p Hp. pose proof (Hfs p Hp) as Hs.
    rewrite Hold; [exact Hs|]. apply Hwf in Hs. lia.
Qed.

(** X13.  [clone] keeps the heap well formed and takes one address for the
    combo and one for each feature; in the heap it leaves, the clone and the
    combo that was cloned both have all their features, so each of them can
    be cloned again. *)
Theorem clone_keeps_heap (h : Heap) (this : nat) (tick : Q) (c : Combo) :
  heap_wf h ->
  combos h !! this = Some c ->
  Forall (fun p => is_Some (features h !! p)) (c_features c) ->
  exists (retval : nat) (h' : Heap) (c' : Combo),
    clone this tick h = Some (retval, h') /\
    heap_wf h' /\
    next h' = (next h + 1 + length (c_features c))%nat /\
    combos h' !! retval = Some c' /\
    combos h' !! this = Some c /\
    Forall (fun p => is_Some (features h' !! p)) (c_features c') /\
    Forall (fun p => is_Some (features h' !! p)) (c_features c).
Proof.
  intros Hwf Hthis Hfs.
  destruct (clone_shape h this tick c Hwf Hthis Hfs)
    as (h' & Hc & Hwf' & Hnext & Hcombos & Hold & Hnew).
  destruct (clone_features_exist h h' c Hwf Hfs Hold Hnew) as [Hnewfs Holdfs].
  exists (next h), h', (retick c (seq (S (next h)) (length (c_features c))) tick).
  split; [exact Hc|]. split; [exact Hwf'|]. split; [lia|].
  rewrite Hcombos. split; [by rewrite lookup_insert_eq|]. split.
  - rewrite lookup_insert_ne; [exact Hthis|].
    destruct Hwf as [_ Hwc]. assert (this < next h)%nat by (apply Hwc; eauto). lia.
  - split; [exact Hnewfs|exact Holdfs].
Qed.

(** X14.  The clone of a clone: it has the time stamp of the second call and
    the other fields of the first combo; its [i]-th feature is an object of
    its own, different from the [i]-th feature of the clone and of the
    first combo, with the same fields as these. *)
Theorem clone_clone (h : Heap) (this : nat) (tick1 tick2 : Q) (c : Combo) :
  heap_wf h ->
  combos h !! this = Some c ->
  Forall (fun p => is_Some (features h !! p)) (c_features c) ->
  exists (r1 r2 : nat) (h1 h2 : Heap) (c1 c2 : Combo),
    clone this tick1 h = Some (r1, h1) /\
    combos h1 !! r1 = Some c1 /\
    clone r1 tick2 h1 = Some (r2, h2) /\
    combos h2 !! r2 = Some c2 /\
    c2 = retick c (c_features c2) tick2 /\
    combos h2 !! r1 = Some c1 /\
    combos h2 !! this = Some c /\
    forall (i p : nat), c_features c !! i = Some p ->
      exists q1 q2 : nat,
        c_features c1 !! i = Some q1 /\ c_features c2 !! i = Some q2 /\
        p <> q1 /\ p <> q2 /\ q1 <> q2 /\
        features h2 !! q1 = features h !! p /\
        features h2 !! q2 = features h !! p /\
        features h2 !! p = features h !! p.
Proof.
  intros Hwf Hthis Hfs.
  destruct (clone_shape h this tick1 c Hwf Hthis Hfs)
    as (h1 & Hc1 & Hwf1 & Hnext1 & Hcombos1 & Hold1 & Hnew1).
  destruct (clone_features_exist h h1 c Hwf Hfs Hold1 Hnew1) as [Hfs1 _].
  set (c1 := retick c (seq (S (next h)) (length (c_features c))) tick1) in *.
  assert (Hr1 : combos h1 !! next h = Some c1)
    by (rewrite Hcombos1; by rewrite lookup_insert_eq).
  destruct (clone_shape h1 (next h) tick2 c1 Hwf1 Hr1 Hfs1)
    as (h2 & Hc2 & Hwf2 & Hnext2 & Hcombos2 & Hold2 & Hnew2).
  assert (Hlen : length (c_features c1) = length (c_features c))
    by (cbn; apply length_seq).
  set (c2 := retick c1 (seq (S (next h1)) (length (c_features c1))) tick2) in *.
  assert (Hlt : (this < next h)%nat).
  { destruct Hwf as [_ Hwc]. apply Hwc. eauto. }
  exists (next h), (next h1), h1, h2, c1, c2.
  split; [exact Hc1|]. split; [exact Hr1|]. split; [exact Hc2|].
  rewrite Hcombos2.
  split; [by rewrite lookup_insert_eq|]. split; [reflexivity|].
  split; [rewrite lookup_insert_ne; [exact Hr1|lia]|].
  split.
  { rewrite lookup_insert_ne by lia. rewrite Hcombos1.
    rewrite lookup_insert_ne by lia. exact Hthis. }
  intros i p Hi.
  assert (Hi' : (i < length (c_features c))%nat) by (eapply lookup_lt_Some, Hi).
  assert (Hp : (p < next h)%nat).
  { destruct Hwf as [Hwf _]. apply Hwf. rewrite List.Forall_forall in Hfs.
    apply Hfs, list_elem_of_In. eapply list_elem_of_lookup_2, Hi. }
  assert (Hq1 : c_features c1 !! i = Some (S (next h) + i)%nat)
    by (cbn; by apply lookup_seq_lt).
  exists (S (next h) + i)%nat, (S (next h1) + i)%nat.
  split; [exact Hq1|].
  split; [cbn; apply lookup_seq_lt; rewrite length_seq; exact Hi'|].
  split; [lia|]. split; [lia|]. split; [lia|].
  split.
  { rewrite Hold2 by lia. exact (Hnew1 i p Hi). }
  split.
  { rewrite (Hnew2 i _ Hq1). exact (Hnew1 i p Hi). }
  rewrite Hold2 by lia. apply Hold1. lia.
Qed.

(** X15.  The constructor gives the combo the geometry and the type of its
    one feature and the time stamp it is passed; the clone of that combo has
    a feature of its own and again the geometry and the type of its
    feature, as the combo still has after the call. *)
Theorem make_clone_mirrors (h : Heap) (p_feature : nat) (tick tick' : Q) (c : Combo) :
  heap_wf h ->
  make p_feature tick h = Some c ->
  mirrors h c /\ c_tick c = tick /\
  exists (retval : nat) (h' : Heap) (c' : Combo),
    clone (next h) tick' (snd (make_shared_combo c h)) = Some (retval, h') /\
    combos h' !! retval = Some c' /\
    c_tick c' = tick' /\
    mirrors h' c' /\ mirrors h' c /\
    c_features c' <> c_features c.
Proof.
  intros Hwf Hmake. unfold make in Hmake.
  destruct (features h !! p_feature) as [f|] eqn:Hf; [|discriminate].
  injection Hmake as <-.
  set (c := {| c_features := [p_feature]; c_height := f_height f;
               c_width := f_width f; c_center := f_center f;
               c_angle := f_angle f; c_corners := f_corners f;
               c_type := f_type f; c_tick := tick |}).
  assert (Hm : mirrors h c) by (exists p_feature, f; cbn; auto 10).
  split; [exact Hm|]. split; [reflexivity|].
  assert (Hp : (p_feature < next h)%nat) by (destruct Hwf as [Hw _]; apply Hw; eauto).
  set (h0 := snd (make_shared_combo c h)).
  assert (Hwf0 : heap_wf h0).
  { destruct Hwf as [Hw Hwc]. split; cbn; intros x Hx.
    - apply Hw in Hx. lia.
    - destruct (decide (next h = x)) as [<-|Hne]; [lia|].
      rewrite lookup_insert_ne in Hx by exact Hne. apply Hwc in Hx. lia. }
  assert (Hthis : combos h0 !! next h = Some c) by (cbn; by rewrite lookup_insert_eq).
  assert (Hfs : Forall (fun p => is_Some (features h0 !! p)) (c_features c)).
  { cbn. repeat constructor. eauto. }
  destruct (clone_shape h0 (next h) tick' c Hwf0 Hthis Hfs)
    as (h' & Hc & _ & _ & Hcombos & Hold & Hnew).
  exists (next h0), h', (retick c (seq (S (next h0)) (length (c_features c))) tick').
  split; [exact Hc|]. rewrite Hcombos.
  split; [by rewrite lookup_insert_eq|]. split; [reflexivity|].
  split; [|split].
  - exists (S (next h0) + 0)%nat, f. cbn [retick c_features c_height c_width
      c_center c_angle c_corners c_type c length seq].
    split; [by rewrite Nat.add_0_r|].
    split; [|auto 10].
    rewrite (Hnew 0%nat p_feature eq_refl). exact Hf.
  - exists p_feature, f. split; [reflexivity|].
    split; [|cbn; auto 10].
    rewrite Hold; [exact Hf|]. cbn. lia.
  - cbn. intros [= E]. lia.
Qed.
End ComboTheorems.

Lemma clone_keeps_heap_witness :
  exists (retval : nat) (h' : DefaultCombo.Heap),
    DefaultCombo.clone 2 2000 sample_heap = Some (retval, h') /\
    DefaultCombo.heap_wf h'.
Proof.
  assert (Hthis : DefaultCombo.combos sample_heap !! 2%nat = Some sample_combo)
    by reflexivity.
  assert (Hfs : Forall (fun p => is_Some (DefaultCombo.features sample_heap !! p))
                  (DefaultCombo.c_features sample_combo)).
  { repeat constructor; eexists; reflexivity. }
  destruct (clone_keeps_heap sample_heap 2 2000 sample_combo
              sample_heap_wf Hthis Hfs) as (retval & h' & c' & Hclone & Hwf & _).
  exists retval, h'. split; assumption.
Defined.

Lemma clone_clone_witness :
  exists (r1 r2 : nat) (h1 h2 : DefaultCombo.Heap),
    DefaultCombo.clone 2 2000 sample_heap = Some (r1, h1) /\
    DefaultCombo.clone r1 3000 h1 = Some (r2, h2).
Proof.
  assert (Hthis : DefaultCombo.combos sample_heap !! 2%nat = Some sample_combo)
    by reflexivity.
  assert (Hfs : Forall (fun p => is_Some (DefaultCombo.features sample_heap !! p))
                  (DefaultCombo.c_features sample_combo)).
  { repeat constructor; eexists; reflexivity. }
  destruct (clone_clone sample_heap 2 2000 3000 sample_combo
              sample_heap_wf Hthis Hfs)
    as (r1 & r2 & h1 & h2 & c1 & c2 & H1 & _ & H2 & _).
  exists r1, r2, h1, h2. split; assumption.
Defined.

Lemma make_clone_mirrors_witness :
  exists c, DefaultCombo.make 0 1000 sample_heap = Some c /\ mirrors sample_heap c.
Proof.
  destruct (DefaultCombo.make 0 1000 sample_heap) as [c|] eqn:E;
    [|vm_compute in E; discriminate].
  exists c. split; [reflexivity|].
  apply (make_clone_mirrors sample_heap 0 1000 2000 c sample_heap_wf E).
Defined.

(** * Further properties of tags *)

Lemma fold_point_add (l : list Point2f) : forall acc : Point2f,
  px (fold_left Tag.point_add l acc) == px acc + sum_x l /\
  py (fold_left Tag.point_add l acc) == py acc + sum_y l.
Proof.
  induction l as [|c l IH]; intros acc; cbn [fold_left sum_x sum_y fold_right].
  - split; ring.
  - destruct (IH (Tag.point_add acc c)) as [-> ->]. cbn. unfold sum_x, sum_y.
    split; ring.
Qed.

Lemma sum_box (l : list Point2f) (xlo xhi ylo yhi : Q) :
  Forall (fun c => xlo <= px c /\ px c <= xhi /\ ylo <= py c /\ py c <= yhi) l ->
  inject_Z (Z.of_nat (length l)) * xlo <= sum_x l /\
  sum_x l <= inject_Z (Z.of_nat (length l)) * xhi /\
  inject_Z (Z.of_nat (length l)) * ylo <= sum_y l /\
  sum_y l <= inject_Z (Z.of_nat (length l)) * yhi.
Proof.
  induction 1 as [|c l (H1 & H2 & H3 & H4) _ (IH1 & IH2 & IH3 & IH4)].
  - cbn [length sum_x sum_y fold_right]. change (inject_Z (Z.of_nat 0)) with 0.
    repeat split; lra.
  - cbn [length sum_x sum_y fold_right]. fold (sum_x l) (sum_y l).
    rewrite Nat2Z.inj_succ, <- Z.add_1_r, inject_Z_plus.
    change (inject_Z 1) with 1. repeat split; lra.
Qed.

Section TagCenter.
Variable getDistance : Point2f -> Point2f -> Q.

(** The center of a tag is the mean of its four corners. *)
Lemma make_center (corners : list Point2f) (type : nat) (tag : Tag.Tag) :
  Tag.make getDistance corners type = inr tag ->
  length corners = 4%nat /\
  px (Tag.center_ tag) == (1 # 4) * sum_x corners /\
  py (Tag.center_ tag) == (1 # 4) * sum_y corners.
Proof.
  unfold Tag.make. intros H.
  destruct (length corners =? 4)%nat eqn:Hlen; cbn [negb] in H; [|discriminate].
  apply Nat.eqb_eq in Hlen. split; [exact Hlen|].
  injection H as <-. cbn [Tag.center_ Tag.point_div px py]. rewrite Hlen.
  destruct (fold_point_add corners Tag.origin) as [-> ->].
  change (inject_Z (Z.of_nat 4)) with 4. cbn [Tag.origin px py].
  split; field.
Qed.

(** X16.  The center of a tag lies in every axis-parallel box that holds
    its four corners. *)
Theorem make_center_box (corners : list Point2f) (type : nat) (tag : Tag.Tag)
    (xlo xhi ylo yhi : Q) :
  Tag.make getDistance corners type = inr tag ->
  Forall (fun c => xlo <= px c /\ px c <= xhi /\ ylo <= py c /\ py c <= yhi)
    corners ->
  xlo <= px (Tag.center_ tag) /\ px (Tag.center_ tag) <= xhi /\
  ylo <= py (Tag.center_ tag) /\ py (Tag.center_ tag) <= yhi.
Proof.
  intros Hmake Hbox. destruct (make_center corners type tag Hmake) as (Hlen & -> & ->).
  apply sum_box in Hbox. rewrite Hlen in Hbox.
  change (inject_Z (Z.of_nat 4)) with 4 in Hbox.
  destruct Hbox as (H1 & H2 & H3 & H4). repeat split; lra.
Qed.
End TagCenter.

Lemma make_center_box_witness :
  exists tag, Tag.make axis_distance sample_corners 0 = inr tag /\
    10 <= px (Tag.center_ tag) /\ px (Tag.center_ tag) <= 40.
Proof.
  destruct (Tag.make axis_distance sample_corners 0) as [e|tag] eqn:E;
    [vm_compute in E; discriminate|].
  exists tag. split; [reflexivity|].
  assert (Hbox : Forall (fun c => 10 <= px c /\ px c <= 40 /\ 10 <= py c /\ py c <= 30)
                   sample_corners).
  { repeat constructor; vm_compute; discriminate. }
  destruct (make_center_box axis_distance sample_corners 0 tag 10 40 10 30 E Hbox)
    as (H1 & H2 & _).
  split; assumption.
Defined.

(** * The warning of Client::spin *)

Lemma spin_from_lookup (statuses : list Client.UA_StatusCode) :
  forall (warning : bool) (k : nat),
    Client.spin_from warning statuses !! k = Some true <->
    (exists status, statuses !! k = Some status /\
                    status <> Client.UA_STATUSCODE_GOOD) /\
    match k with
    | O => warning = false
    | S k' => statuses !! k' = Some Client.UA_STATUSCODE_GOOD
    end.
Proof.
  induction statuses as [|s rest IH]; intros warning k.
  - cbn. rewrite lookup_nil. split; [discriminate|].
    intros [(status & H & _) _]. by rewrite lookup_nil in H.
  - cbn [Client.spin_from Client.spin_turn].
    destruct k as [|k]; cbn [lookup list_lookup].
    + destruct (N.eqb_spec s Client.UA_STATUSCODE_GOOD) as [->|Hs];
        destruct warning; cbn; split;
        try (intros [= ?]); try (intros [(status & [= <-] & Hb) Hw]);
        try congruence; try discriminate.
      split; [eauto|reflexivity].
    + rewrite IH. destruct k as [|k]; [|reflexivity].
      cbn [lookup list_lookup].
      destruct (N.eqb_spec s Client.UA_STATUSCODE_GOOD) as [->|Hs].
      * split; intros [H _]; (split; [exact H|reflexivity]).
      * destruct warning; cbn; split; intros [_ H];
          try discriminate; try (injection H as ->; contradiction).
Qed.

(** X18.  While [spin] runs, a warning is logged in exactly those turns
    whose status is not good and that are the first turn or come after a
    turn whose status was good: once for each run of failed turns. *)
Theorem spin_warns_once (statuses : list Client.UA_StatusCode) (k : nat) :
  Client.spin statuses !! k = Some true <->
  (exists status, statuses !! k = Some status /\
                  status <> Client.UA_STATUSCODE_GOOD) /\
  (k = 0%nat \/
   exists k', k = S k' /\ statuses !! k' = Some Client.UA_STATUSCODE_GOOD).
Proof.
  unfold Client.spin. rewrite spin_from_lookup. destruct k as [|k].
  - split; [intros [H _]; split; [exact H|by left]|].
    intros [H _]. split; [exact H|reflexivity].
  - split.
    + intros [H Hg]. split; [exact H|]. right. eauto.
    + intros [H [Hk|(k' & [= <-] & Hg)]]; [discriminate|]. split; assumption.
Qed.

(** Three failed turns, a good one and a failed one: two warnings. *)
Example spin_sample :
  Client.spin [5; 5; 7; 0; 5]%N = [true; false; false; false; true].
Proof. reflexivity. Qed.

(** * The node of an object type *)

Section TypeIdFacts.
Variable NodeId : Type.
Variable find : NodeId -> String.string -> NodeId.
Variable empty : NodeId -> bool.
Variable nodeBaseObjectType : NodeId.

Lemma push_from_lineage (o : Server.ObjectType) : forall base_stack,
  Server.push_from o base_stack = List.rev (Server.lineage o) ++ base_stack.
Proof.
  induction o as [name|name base IH]; intros base_stack; cbn; [reflexivity|].
  rewrite IH, <- app_assoc. reflexivity.
Qed.

Lemma pop_bases_fold (base_stack : list String.string) : forall id : NodeId,
  Server.pop_bases NodeId find base_stack id = fold_left find base_stack id.
Proof. induction base_stack as [|top rest IH]; intros id; cbn; auto. Qed.

(** X19.  The type node of an object is found by following the browse names
    from the farthest base of its type down to the type itself, starting at
    the base object type; without a type, or when the search ends on an
    empty id, it is the base object type.  A type node found this way is
    never empty when the base object type is not. *)
Theorem object_type_id_root_first (type : option Server.ObjectType) :
  Server.object_type_id NodeId find empty nodeBaseObjectType type
  = (let names := match type with
                  | Some o => List.rev (Server.lineage o)
                  | None => []
                  end in
     let id := fold_left find names nodeBaseObjectType in
     if empty id then nodeBaseObjectType else id) /\
  (empty nodeBaseObjectType = false ->
   empty (Server.object_type_id NodeId find empty nodeBaseObjectType type) = false) /\
  (forall o, Server.parent_type_id NodeId find empty nodeBaseObjectType o
             = Server.object_type_id NodeId find empty nodeBaseObjectType
                 (Server.getBase o)).
Proof.
  assert (Heq : Server.object_type_id NodeId find empty nodeBaseObjectType type
    = (let names := match type with
                    | Some o => List.rev (Server.lineage o)
                    | None => []
                    end in
       let id := fold_left find names nodeBaseObjectType in
       if empty id then nodeBaseObjectType else id)).
  { unfold Server.object_type_id. rewrite pop_bases_fold.
    destruct type as [o|]; cbn [Server.push_bases]; [|reflexivity].
    by rewrite push_from_lineage, app_nil_r. }
  split; [exact Heq|]. split; [|reflexivity].
  intros Hbase. rewrite Heq. cbv zeta.
  destruct (empty (fold_left find _ nodeBaseObjectType)) eqn:E; [exact Hbase|exact E].
Qed.
End TypeIdFacts.

(** * The trackbars of the calibration sample *)

(** The positions of the two lists of [main], in the order of the loops. *)
Example pose_sample :
  Calib.matrix_pose
  = [Calib.mkPoint 0 0; Calib.mkPoint 0 1; Calib.mkPoint 0 2;
     Calib.mkPoint 1 0; Calib.mkPoint 1 1; Calib.mkPoint 1 2;
     Calib.mkPoint 2 0; Calib.mkPoint 2 1; Calib.mkPoint 2 2] /\
  length Calib.dist_pose = 6%nat.
Proof. split; reflexivity. Qed.

(** A trackbar leaves every entry of the camera matrix but the first of row
    0, the last of row 0 and the last of row 1. *)
Lemma slide_camera_matrix (k : nat) (pos : Z) (st : Calib.State) (idx : nat) :
  idx <> 0%nat -> idx <> 2%nat -> idx <> 5%nat ->
  Calib.cameraMatrix (Calib.slide k pos st) !! idx = Calib.cameraMatrix st !! idx.
Proof.
  intros H0 H2 H5. unfold Calib.slide.
  do 9 (destruct k as [|k];
        [cbn; try reflexivity; by rewrite list_lookup_insert_ne|]).
  reflexivity.
Qed.

(** X20.  Whatever trackbars are moved, only three entries of the camera
    matrix can change: (0, 0), (0, 2) and (1, 2).  The entry (1, 1) never
    changes: the trackbar named (1, 1) is given the position (0, 0) and
    does what the trackbar named (0, 0) does. *)
Theorem slides_camera_matrix (events : list (nat * Z)) (st : Calib.State) :
  (forall idx : nat, idx <> 0%nat -> idx <> 2%nat -> idx <> 5%nat ->
     Calib.cameraMatrix (Calib.slides events st) !! idx
     = Calib.cameraMatrix st !! idx) /\
  (forall (pos : Z) (st' : Calib.State),
     Calib.slide 1 pos st' = Calib.slide 0 pos st' /\
     Calib.cameraMatrix (Calib.slide 1 pos st')
     = <[0%nat := inject_Z pos]> (Calib.cameraMatrix st')).
Proof.
  split; [|intros pos st'; split; reflexivity].
  intros idx H0 H2 H5. unfold Calib.slides. revert st.
  induction events as [|e events IH]; intros st; cbn [fold_left]; [reflexivity|].
  rewrite IH. by apply slide_camera_matrix.
Qed.

Lemma inject_Z_span (pos hi : Z) :
  (0 <= pos <= hi)%Z -> 0 <= inject_Z pos /\ inject_Z pos <= inject_Z hi.
Proof. intros [H0 H1]. unfold Qle, inject_Z. cbn. lia. Qed.

Lemma wide_span (pos : Z) :
  (0 <= pos <= 10000)%Z ->
  -1 <= (-5000 + inject_Z pos) / 5000 /\ (-5000 + inject_Z pos) / 5000 <= 1.
Proof.
  intros H. apply inject_Z_span in H. change (inject_Z 10000) with 10000 in H.
  assert (E : (-5000 + inject_Z pos) / 5000 == (1 # 5000) * (-5000 + inject_Z pos))
    by field.
  rewrite E. split; lra.
Qed.

Lemma narrow_span (pos : Z) :
  (0 <= pos <= 1000)%Z ->
  -(1 # 10) <= (-500 + inject_Z pos) / 5000 /\ (-500 + inject_Z pos) / 5000 <= 1 # 10.
Proof.
  intros H. apply inject_Z_span in H. change (inject_Z 1000) with 1000 in H.
  assert (E : (-500 + inject_Z pos) / 5000 == (1 # 5000) * (-500 + inject_Z pos))
    by field.
  rewrite E. split; lra.
Qed.

Lemma dist_bounded_insert (d : list Q) (idx : nat) (v : Q) :
  Calib.dist_bounded d ->
  (if (idx <? 2)%nat then -1 <= v /\ v <= 1 else -(1 # 10) <= v /\ v <= 1 # 10) ->
  Calib.dist_bounded (<[idx := v]> d).
Proof.
  intros [Hlen Hd] Hv. split; [by rewrite length_insert|].
  intros k w Hk. apply list_lookup_insert_Some in Hk.
  destruct Hk as [(-> & -> & _)|[_ Hk]]; [exact Hv|by apply Hd].
Qed.

Lemma slide_dist_bounded (e : nat * Z) (st : Calib.State) :
  Calib.in_range e -> Calib.dist_bounded (Calib.distCoeff st) ->
  Calib.dist_bounded (Calib.distCoeff (Calib.slide (fst e) (snd e) st)).
Proof.
  destruct e as [k pos]. intros (t & Ht & Hpos) Hd. cbn [fst snd] in *.
  unfold Calib.slide. rewrite Ht.
  do 4 (destruct k as [|k]; [injection Ht as <-; exact Hd|]).
  do 2 (destruct k as [|k];
        [injection Ht as <-; cbn in Hpos |- *;
         apply dist_bounded_insert; [exact Hd|by apply wide_span]|]).
  do 3 (destruct k as [|k];
        [injection Ht as <-; cbn in Hpos |- *;
         apply dist_bounded_insert; [exact Hd|by apply narrow_span]|]).
  discriminate.
Qed.

(** X21.  When the five distortion coefficients start within the span of
    their trackbars, the first two between -1 and 1 and the other three
    between -0.1 and 0.1, they stay within it whatever trackbars are moved,
    each to a position it can take. *)
Theorem slides_dist_bounded (events : list (nat * Z)) (st : Calib.State) :
  Forall Calib.in_range events ->
  Calib.dist_bounded (Calib.distCoeff st) ->
  Calib.dist_bounded (Calib.distCoeff (Calib.slides events st)).
Proof.
  unfold Calib.slides. intros Hev. revert st.
  induction Hev as [|e events He _ IH]; intros st Hd; cbn [fold_left]; [exact Hd|].
  apply IH. by apply slide_dist_bounded.
Qed.

Lemma sample_dist_bounded : Calib.dist_bounded (Calib.distCoeff sample_state).
Proof.
  split; [reflexivity|]. intros k v Hk.
  do 5 (destruct k as [|k]; [injection Hk as <-; cbn; split; lra|]).
  destruct k; discriminate.
Qed.

Lemma slides_dist_bounded_witness :
  Calib.dist_bounded
    (Calib.distCoeff (Calib.slides [(4%nat, 7500%Z); (6%nat, 100%Z)] sample_state)).
Proof.
  apply (slides_dist_bounded [(4%nat, 7500%Z); (6%nat, 100%Z)] sample_state).
  - repeat constructor; eexists; (split; [reflexivity|cbn; lia]).
  - exact sample_dist_bounded.
Defined.

(** The trackbar named (1, 1) at 900 and the first distortion trackbar at
    7500: the entry (0, 0) becomes 900, the entry (1, 1) stays 1250 and the
    first coefficient becomes 1/2. *)
Example slides_sample :
  Calib.cameraMatrix (Calib.slides [(1%nat, 900%Z); (4%nat, 7500%Z)] sample_state)
  = [inject_Z 900; 0; 640; 0; 1250; 512; 0; 0; 1] /\
  (forall v, Calib.distCoeff
               (Calib.slides [(1%nat, 900%Z); (4%nat, 7500%Z)] sample_state)
             !! 0%nat = Some v -> v == 1 # 2).
Proof.
  split; [reflexivity|]. intros v [= <-]. reflexivity.
Qed.

Lemma sample_range_witness :
  (0 <= GyroDetector.sample_x dark (blob_at 7 630 10) (-5)
   <= GyroDetector.cols dark)%Z /\
  (0 <= GyroDetector.sample_y dark (blob_at 7 630 10) <= GyroDetector.rows dark)%Z.
Proof.
  apply (sample_range dark (blob_at 7 630 10) (-5)); cbn; lia.
Defined.

(** * Conflict resolution and the order of a whole list *)

Lemma loser_same (a : Armor) (x : Armor) :
  GyroDetector.loser a a = Some x -> x = a.
Proof.
  unfold GyroDetector.loser.
  destruct (GyroDetector.share_same a a).
  - destruct (Qgtb (awidth a) (awidth a)); congruence.
  - destruct (GyroDetector.share_cross a a); [|discriminate].
    destruct (Qgtb (aerror a) (aerror a)); congruence.
Qed.

(** Without a tie the loser of a pair does not depend on the order of the
    two. *)
Lemma loser_sym (a b : Armor) :
  a = b \/
  ((GyroDetector.share_same a b = true -> ~ awidth a == awidth b) /\
   (GyroDetector.share_same a b = false -> GyroDetector.share_cross a b = true ->
    ~ aerror a == aerror b)) ->
  GyroDetector.loser a b = GyroDetector.loser b a.
Proof.
  intros [->|[Hw He]]; [reflexivity|].
  unfold GyroDetector.loser.
  rewrite <- (share_same_sym a b), <- (share_cross_sym a b).
  destruct (GyroDetector.share_same a b).
  - specialize (Hw eq_refl).
    destruct (Qgtb (awidth a) (awidth b)) eqn:E1;
      destruct (Qgtb (awidth b) (awidth a)) eqn:E2; try reflexivity; exfalso.
    + apply Qgtb_true in E1, E2. lra.
    + apply Qgtb_false in E1, E2. apply Hw. lra.
  - destruct (GyroDetector.share_cross a b); [|reflexivity].
    specialize (He eq_refl eq_refl).
    destruct (Qgtb (aerror a) (aerror b)) eqn:E1;
      destruct (Qgtb (aerror b) (aerror a)) eqn:E2; try reflexivity; exfalso.
    + apply Qgtb_true in E1, E2. lra.
    + apply Qgtb_false in E1, E2. apply He. lra.
Qed.

(** Under [no_ties] an address is marked when two different positions of the
    list hold a pair with a loser there, in whatever order. *)
Lemma marked_unordered (armors : list Armor) (k : nat) :
  no_ties armors ->
  (marked armors k <->
   exists (i j : nat) (ai aj a : Armor),
     i <> j /\ armors !! i = Some ai /\ armors !! j = Some aj /\
     GyroDetector.loser ai aj = Some a /\ aid a = k).
Proof.
  intros Hnt. split.
  - intros (i & j & ai & aj & a & Hlt & H). exists i, j, ai, aj, a.
    split; [lia|exact H].
  - intros (i & j & ai & aj & a & Hne & Hi & Hj & Hl & Hk).
    destruct (Nat.lt_ge_cases i j) as [Hlt|Hge].
    + exists i, j, ai, aj, a. auto.
    + exists j, i, aj, ai, a. split; [lia|]. split; [exact Hj|]. split; [exact Hi|].
      split; [|exact Hk]. rewrite <- Hl. symmetry. apply loser_sym, Hnt.
      * apply list_elem_of_In. eapply list_elem_of_lookup_2, Hi.
      * apply list_elem_of_In. eapply list_elem_of_lookup_2, Hj.
Qed.

Lemma no_ties_perm (l l' : list Armor) : l ≡ₚ l' -> no_ties l -> no_ties l'.
Proof.
  intros Hp Hnt a b Ha Hb.
  apply Hnt; [exact (Permutation_in a (Permutation_sym Hp) Ha)|].
  exact (Permutation_in b (Permutation_sym Hp) Hb).
Qed.

Lemma marked_perm_1 (l l' : list Armor) (k : nat) :
  l ≡ₚ l' -> no_ties l -> marked l k -> marked l' k.
Proof.
  intros Hp Hnt Hm. pose proof (no_ties_perm l l' Hp Hnt) as Hnt'.
  apply marked_unordered in Hm; [|exact Hnt].
  apply marked_unordered; [exact Hnt'|].
  destruct Hm as (i & j & ai & aj & a & Hne & Hi & Hj & Hl & Hk).
  apply Permutation_inj in Hp. destruct Hp as (_ & f & Hinj & Hf).
  exists (f i), (f j), ai, aj, a. rewrite <- !Hf.
  split; [intros E; apply Hne, Hinj, E|auto].
Qed.

Lemma filter_perm_same {A} (f : A -> bool) (l l' : list A) :
  l ≡ₚ l' -> List.filter f l ≡ₚ List.filter f l'.
Proof.
  induction 1 as [|x l l' Hp IH|x y l|l l' l'' Hp1 IH1 Hp2 IH2]; cbn.
  - reflexivity.
  - destruct (f x); [by constructor|exact IH].
  - destruct (f x), (f y); try reflexivity. apply perm_swap.
  - by etransitivity.
Qed.

Lemma filter_perm {A} (f g : A -> bool) (l l' : list A) :
  l ≡ₚ l' -> (forall x, In x l -> f x = g x) ->
  List.filter f l ≡ₚ List.filter g l'.
Proof.
  intros Hp Hfg. rewrite (List.filter_ext_in f g l Hfg).
  by apply filter_perm_same.
Qed.

(** X22.  On lists without ties the result of [eraseErrorArmors] does not
    depend on the order of the input: two arrangements of the same armors
    give two arrangements of the same survivors. *)
Theorem eraseErrorArmors_perm (armors armors' : list Armor) :
  armors ≡ₚ armors' -> no_ties armors ->
  GyroDetector.eraseErrorArmors armors ≡ₚ GyroDetector.eraseErrorArmors armors'.
Proof.
  intros Hp Hnt. unfold GyroDetector.eraseErrorArmors.
  rewrite <- (Permutation_length Hp).
  destruct (length armors <? 2)%nat; [exact Hp|].
  apply filter_perm; [exact Hp|]. intros x Hx. f_equal.
  destruct (GyroDetector.removable
              (GyroDetector.mark_all armors (GyroDetector.init_map armors)) x) eqn:E.
  - symmetry. apply removable_marked. apply removable_marked in E.
    by apply (marked_perm_1 armors armors').
  - symmetry. apply removable_false. intros Hm.
    assert (Hm' : marked armors (aid x)).
    { apply (marked_perm_1 armors' armors); [by symmetry| |exact Hm].
      by apply (no_ties_perm armors armors'). }
    apply removable_marked in Hm'. congruence.
Qed.

Lemma sample_no_ties : no_ties [armor12; armor23; armor13].
Proof.
  intros a b Ha Hb. cbn in Ha, Hb.
  destruct Ha as [<-|[<-|[<-|[]]]]; destruct Hb as [<-|[<-|[<-|[]]]];
    try (left; reflexivity); right;
    (split; [intros Hs H|intros Hs Hc H]); vm_compute in Hs, H; congruence.
Qed.

Lemma eraseErrorArmors_perm_witness :
  GyroDetector.eraseErrorArmors [armor12; armor23; armor13]
    ≡ₚ GyroDetector.eraseErrorArmors [armor13; armor12; armor23].
Proof.
  apply (eraseErrorArmors_perm [armor12; armor23; armor13] [armor13; armor12; armor23]).
  - symmetry. apply (Permutation_cons_append [armor12; armor23] armor13).
  - exact sample_no_ties.
Defined.

(** * The prune through find *)

Section FindPrune.
Variable Contour : Type.
Variable findContours : GyroDetector.Mat -> list Contour.
Variable contourArea : Contour -> Q.
Variable MIN_CONTOUR_AREA : Q.
Variable make_feature : Contour -> option LightBlob.
Variable make_combo : LightBlob -> LightBlob -> option Armor.
Variable isContainBlob : LightBlob -> Armor -> bool.

Local Abbreviation findLightBlobs :=
  (GyroDetector.findLightBlobs Contour findContours contourArea
     MIN_CONTOUR_AREA make_feature).
Local Abbreviation find :=
  (GyroDetector.find Contour findContours contourArea MIN_CONTOUR_AREA
     make_feature make_combo isContainBlob).

(** X23.  The prune holds for the whole of [find]: when a blob B that
    passed the two filters lies between A and C and inside the armor that
    [make_combo] builds from A and C, no combo that [find] appends has the
    features A and C. *)
Theorem find_containment_prune (src : GyroDetector.Mat)
    (features : list LightBlob) (combos : list Armor)
    (A B C : LightBlob) (a : Armor) :
  keeps_features make_combo ->
  In B (GyroDetector.eraseBrightBlobs src (findLightBlobs src)) ->
  px (bcenter A) < px (bcenter B) -> px (bcenter B) < px (bcenter C) ->
  make_combo A C = Some a -> isContainBlob B a = true ->
  exists new_combos : list Armor,
    snd (find src features combos) = combos ++ new_combos /\
    Forall (fun a' => ~ (at0 a' = A /\ at1 a' = C)) new_combos.
Proof.
  intros Hk HB HAB HBC Ha Hc. unfold GyroDetector.find.
  set (blobs := GyroDetector.eraseBrightBlobs src _) in *.
  destruct (2 <=? length blobs)%nat.
  - destruct (GyroDetector.findArmors make_combo isContainBlob blobs)
      as [sorted armors] eqn:E.
    eexists. split; [reflexivity|].
    apply List.Forall_forall. intros a' Hin.
    apply eraseErrorArmors_In in Hin. destruct Hin as [Hin _].
    apply List.in_map_iff in Hin. destruct Hin as (a0 & <- & Hin).
    cbn [setType at0 at1].
    unfold GyroDetector.findArmors in E.
    destruct (length (std_sort GyroDetector.blob_less blobs) <? 2)%nat;
      injection E as <- <-; [destruct Hin|].
    eapply match_all_prune; eauto using std_sort_sorted.
    eapply Permutation_in; [symmetry; apply std_sort_perm|exact HB].
  - exists []. rewrite app_nil_r. split; [reflexivity|constructor].
Qed.
End FindPrune.

Lemma find_containment_prune_witness :
  exists new_combos : list Armor,
    snd (sample_find [(blob140, 40); (blob120, 30); (blob100, 30)] [] [])
    = [] ++ new_combos /\
    Forall (fun a' => ~ (at0 a' = blob100 /\ at1 a' = blob140)) new_combos.
Proof.
  apply (find_containment_prune (LightBlob * Q)%type
           (fun _ => [(blob140, 40); (blob120, 30); (blob100, 30)])
           sample_area 10 sample_make_feature sample_make_combo
           sample_isContainBlob dark [] [] blob100 blob120 blob140
           (armor_of blob100 blob140) sample_keeps_features).
  - vm_compute. tauto.
  - reflexivity.
  - reflexivity.
  - reflexivity.
  - reflexivity.
Defined.

(** * The reference lines of the calibration sample *)

Lemma grid_from_run (step limit : Z) (k : nat) : forall (fuel : nat) (i : Z),
  (0 < step)%Z ->
  (limit < i + Z.of_nat k * step)%Z ->
  (k <> 0%nat -> i + (Z.of_nat k - 1) * step <= limit)%Z ->
  (k < fuel)%nat ->
  Calib.grid_from fuel i step limit = Some (Calib.ticks k i step).
Proof.
  induction k as [|k IH]; intros fuel i Hstep Hhi Hlo Hfuel;
    (destruct fuel as [|fuel]; [lia|]); cbn [Calib.grid_from Calib.ticks].
  - destruct (Z.leb_spec i limit); [lia|reflexivity].
  - destruct (Z.leb_spec i limit) as [_|Hgt]; [|specialize (Hlo ltac:(lia)); nia].
    rewrite (IH fuel (i + step)%Z); [reflexivity|lia|lia| |lia].
    intros Hk. specialize (Hlo ltac:(lia)). lia.
Qed.

Lemma ticks_spec (step : Z) (k : nat) : forall i : Z,
  (0 <= step)%Z ->
  length (Calib.ticks k i step) = k /\
  Forall (fun j => i <= j <= i + (Z.of_nat k - 1) * step)%Z (Calib.ticks k i step).
Proof.
  induction k as [|k IH]; intros i Hstep; cbn [Calib.ticks length].
  - split; [reflexivity|constructor].
  - destruct (IH (i + step)%Z Hstep) as [-> Hall]. split; [reflexivity|].
    constructor; [nia|]. eapply List.Forall_impl; [|exact Hall].
    intros j Hj. cbn beta in Hj |- *. nia.
Qed.

Lemma grid_stuck (size : Z) (fuel : nat) :
  (0 <= size)%Z -> Calib.grid_from fuel 0 0 size = None.
Proof.
  intros Hsize. induction fuel as [|fuel IH]; cbn [Calib.grid_from]; [reflexivity|].
  destruct (Z.leb_spec 0 size); [|lia]. change (0 + 0)%Z with 0%Z.
  by rewrite IH.
Qed.

(** X25.  The loop that draws the reference lines ends on a frame of at
    least 10 columns (or rows), after between 11 and 20 lines, all within
    [0 .. size]; on a frame of fewer than 10 the step [size / 10] is 0 and
    the loop never ends, however many turns it is given. *)
Theorem grid_lines (size : Z) :
  ((10 <= size)%Z ->
   exists l : list Z,
     (forall fuel, (21 <= fuel)%nat -> Calib.grid fuel size = Some l) /\
     (11 <= length l <= 20)%nat /\
     Forall (fun i => 0 <= i <= size)%Z l) /\
  ((0 <= size < 10)%Z -> forall fuel, Calib.grid fuel size = None).
Proof.
  split.
  - intros Hsize. unfold Calib.grid.
    set (step := Z.quot size 10).
    assert (Hq : (10 * step <= size < 10 * step + 10)%Z).
    { unfold step. rewrite Z.quot_div_nonneg by lia.
      pose proof (Z.div_mod size 10 ltac:(lia)).
      pose proof (Z.mod_pos_bound size 10 ltac:(lia)). lia. }
    assert (Hstep : (1 <= step)%Z) by lia.
    set (q := (size / step)%Z).
    assert (Hd : (step * q <= size < step * (q + 1))%Z).
    { unfold q. pose proof (Z.div_mod size step ltac:(lia)).
      pose proof (Z.mod_pos_bound size step ltac:(lia)). nia. }
    assert (Hqr : (10 <= q <= 19)%Z) by nia.
    exists (Calib.ticks (Z.to_nat (q + 1)) 0 step).
    destruct (ticks_spec step (Z.to_nat (q + 1)) 0%Z ltac:(lia)) as [Hlen Hall].
    split; [|split].
    + intros fuel Hfuel. apply grid_from_run; [lia| | |lia].
      * rewrite Z2Nat.id by lia. nia.
      * intros _. rewrite Z2Nat.id by lia. nia.
    + rewrite Hlen. lia.
    + eapply List.Forall_impl; [|exact Hall]. intros i Hi. cbn beta in Hi.
      rewrite Z2Nat.id in Hi by lia. nia.
  - intros Hsize fuel. unfold Calib.grid.
    replace (Z.quot size 10) with 0%Z; [apply grid_stuck; lia|].
    symmetry. apply Z.quot_small. lia.
Qed.

(** A frame of 1280 columns: eleven lines, 128 apart. *)
Example grid_sample :
  Calib.grid 21 1280
  = Some [0; 128; 256; 384; 512; 640; 768; 896; 1024; 1152; 1280]%Z.
Proof. reflexivity. Qed.
